(** * micrograd: the scalar autograd engine ([micrograd/engine.py])

    A shallow embedding of class [Value] and of the part of
    [micrograd/nn.py] that writes gradients.

    Objects live in an append-only arena; a reference is the position of
    the object in it, so reference equality is Python's object identity.
    Scalars are rationals: arithmetic is exact, and the exponent of
    [__pow__] ranges over the integers (rationals are not closed under
    other powers).  Each [_backward] closure is kept as the tuple of
    references it captured. *)

From Stdlib Require Import QArith Qpower Lia Lqa.
From stdpp Require Import base option list gmap.

Open Scope Q_scope.

(** ** Objects *)

(** A reference to an object. *)
Abbreviation ref := nat.

(** The closures assigned to [_backward], with their captured variables. *)
Inductive closure : Type :=
| BNone                                   (* lambda: None *)
| BAdd (self other out : ref)             (* in __add__ *)
| BMul (self other out : ref)             (* in __mul__ *)
| BPow (self : ref) (other : Z) (out : ref) (* in __pow__ *)
| BRelu (self out : ref).                 (* in relu *)

(** [_op]: '', '+', '*', f'**{other}', 'ReLU'. *)
Inductive optag : Type :=
| OpLeaf | OpAdd | OpMul | OpPow (other : Z) | OpRelu.

Record Value : Type := mkValue {
  data : Q;
  grad : Q;
  _backward : closure;
  _prev : list ref;     (* a Python set, as the sequence its iteration yields *)
  _op : optag
}.

(** A write to a [grad] attribute of an existing object: [v.grad = x] or
    [v.grad += dx]. *)
Inductive grad_write : Type :=
| Assign (v : ref) (x : Q)
| Accumulate (v : ref) (dx : Q).

(** The machine state: the arena, and (ghost) the writes to [grad]
    attributes performed so far, oldest first. *)
Record heap : Type := mkHeap {
  objects : list Value;
  writes : list grad_write
}.

Definition empty_heap : heap := mkHeap [] [].

(** An argument that is either a plain number or a [Value]. *)
Inductive operand : Type :=
| Num (q : Q)
| Val (v : ref).

(** The exponent handed to [__pow__]: an int, or (wrongly) a [Value]. *)
Inductive exponent : Type :=
| ExpNum (n : Z)
| ExpValue (v : ref).

(** ** Effects *)

Inductive exn : Type := AssertionError | ZeroDivisionError.

(** A call returns, raises (the heap is the one at the raise), or is
    stuck: it follows a reference to no object, or the recursion bound of
    the model is used up.  No well-formed heap gets stuck
    ([backward_not_stuck]). *)
Inductive outcome (A : Type) : Type :=
| Ok (a : A) (h : heap)
| Raise (e : exn) (h : heap)
| Stuck.
Arguments Ok {A} a h.
Arguments Raise {A} e h.
Arguments Stuck {A}.

Definition M (A : Type) : Type := heap → outcome A.

#[global] Instance M_ret : MRet M := λ A a h, Ok a h.
#[global] Instance M_bind : MBind M := λ A B f m h,
  match m h with
  | Ok a h' => f a h'
  | Raise e h' => Raise e h'
  | Stuck => Stuck
  end.

Definition raise {A : Type} (e : exn) : M A := λ h, Raise e h.

(** The heap after allocating [n]. *)
Definition push (h : heap) (n : Value) : heap :=
  mkHeap (objects h ++ [n]) (writes h).

Definition alloc (n : Value) : M ref := λ h,
  Ok (length (objects h)) (push h n).

Definition get (v : ref) : M Value := λ h,
  match objects h !! v with
  | Some n => Ok n h
  | None => Stuck
  end.

Definition get_data (v : ref) : M Q := n ← get v; mret (data n).
Definition get_grad (v : ref) : M Q := n ← get v; mret (grad n).

Definition with_grad (g : Q) (n : Value) : Value :=
  mkValue (data n) g (_backward n) (_prev n) (_op n).

Definition with_backward (c : closure) (n : Value) : Value :=
  mkValue (data n) (grad n) c (_prev n) (_op n).

(** [v._backward = c] *)
Definition set_backward (v : ref) (c : closure) : M unit := λ h,
  match objects h !! v with
  | Some n => Ok tt (mkHeap (<[v := with_backward c n]> (objects h)) (writes h))
  | None => Stuck
  end.

(** [v.grad = x] *)
Definition store_grad (v : ref) (x : Q) : M unit := λ h,
  match objects h !! v with
  | Some n =>
      Ok tt (mkHeap (<[v := with_grad x n]> (objects h)) (writes h ++ [Assign v x]))
  | None => Stuck
  end.

(** [v.grad += dx] *)
Definition iadd_grad (v : ref) (dx : Q) : M unit := λ h,
  match objects h !! v with
  | Some n =>
      Ok tt (mkHeap (<[v := with_grad (grad n + dx) n]> (objects h))
                    (writes h ++ [Accumulate v dx]))
  | None => Stuck
  end.

(** ** Python numbers *)

(** [x ** n] on numbers: zero to a negative power raises. *)
Definition num_pow (x : Q) (n : Z) : M Q :=
  if Qeq_bool x 0 && (n <? 0)%Z then raise ZeroDivisionError
  else mret (Qpower x n).

(** A bool used as a number. *)
Definition bool_num (b : bool) : Q := if b then 1 else 0.

Definition Qgtb (x y : Q) : bool :=
  match x ?= y with Gt => true | _ => false end.

Definition Qltb (x y : Q) : bool :=
  match x ?= y with Lt => true | _ => false end.

Section Engine.

(** Iterating a set of objects yields them in an order fixed by their
    hashes, that is by their addresses: for a set of two objects [a] and
    [b], [iter_first a b] tells whether [a] comes out first. *)
Variable iter_first : ref → ref → bool.

(** [set(_children)]; the engine passes [()], [(self,)] or
    [(self, other)]. *)
Definition py_set (children : list ref) : list ref :=
  match children with
  | [a; b] =>
      if decide (a = b) then [a]
      else if iter_first a b then [a; b] else [b; a]
  | _ => remove_dups children
  end.

(** ** class Value *)

Definition __init__ (d : Q) (_children : list ref) (op : optag) : M ref :=
  alloc (mkValue d 0 BNone (py_set _children) op).

(** [Value(x)] *)
Definition leaf (x : Q) : M ref := __init__ x [] OpLeaf.

(** [other if isinstance(other, Value) else Value(other)] *)
Definition as_value (other : operand) : M ref :=
  match other with
  | Val o => mret o
  | Num x => leaf x
  end.

Definition __add__ (self : ref) (other : operand) : M ref :=
  other ← as_value other;
  a ← get_data self;
  b ← get_data other;
  out ← __init__ (a + b) [self; other] OpAdd;
  set_backward out (BAdd self other out);;
  mret out.

Definition __mul__ (self : ref) (other : operand) : M ref :=
  other ← as_value other;
  a ← get_data self;
  b ← get_data other;
  out ← __init__ (a * b) [self; other] OpMul;
  set_backward out (BMul self other out);;
  mret out.

Definition __pow__ (self : ref) (other : exponent) : M ref :=
  match other with
  | ExpValue _ => raise AssertionError
  | ExpNum n =>
      a ← get_data self;
      p ← num_pow a n;
      out ← __init__ p [self] (OpPow n);
      set_backward out (BPow self n out);;
      mret out
  end.

Definition relu (self : ref) : M ref :=
  a ← get_data self;
  out ← __init__ (if Qltb a 0 then 0 else a) [self] OpRelu;
  set_backward out (BRelu self out);;
  mret out.

(** The body of the closure [c]. *)
Definition call_backward (c : closure) : M unit :=
  match c with
  | BNone => mret tt
  | BAdd self other out =>
      g ← get_grad out; iadd_grad self g;;
      g ← get_grad out; iadd_grad other g
  | BMul self other out =>
      b ← get_data other; g ← get_grad out; iadd_grad self (b * g);;
      a ← get_data self; g ← get_grad out; iadd_grad other (a * g)
  | BPow self other out =>
      a ← get_data self;
      p ← num_pow a (other - 1);
      g ← get_grad out;
      iadd_grad self ((inject_Z other * p) * g)
  | BRelu self out =>
      d ← get_data out; g ← get_grad out;
      iadd_grad self (bool_num (Qgtb d 0) * g)
  end.

(** [for x in l: body(x)] *)
Fixpoint for_each {A : Type} (body : A → M unit) (l : list A) : M unit :=
  match l with
  | [] => mret tt
  | x :: l' => body x;; for_each body l'
  end.

(** The same loop for a body that only updates local variables and may
    run out of recursion depth. *)
Fixpoint for_each_local {A S : Type} (body : A → S → option S) (l : list A)
    (st : S) : option S :=
  match l with
  | [] => Some st
  | x :: l' => st' ← body x st; for_each_local body l' st'
  end.

(** The local function [build_topo] of [backward], on the variables
    [visited] and [topo] it closes over.  [depth] bounds the nesting of
    calls; [None] when it is used up or [v] is no object.  The bound
    [backward] gives, the size of the arena, is never reached on a
    well-formed heap ([topo_order_sorted]); the recursion limit of the
    interpreter is not modelled. *)
Fixpoint build_topo (depth : nat) (h : heap) (v : ref)
    (st : gset ref * list ref) : option (gset ref * list ref) :=
  match depth with
  | O => None
  | S depth =>
      let '(visited, topo) := st in
      if decide (v ∈ visited) then Some st
      else
        n ← objects h !! v;
        '(visited, topo) ← for_each_local (build_topo depth h) (_prev n)
                                          ({[v]} ∪ visited, topo);
        Some (visited, topo ++ [v])
  end.

(** The list [topo] at the end of [build_topo(self)]. *)
Definition topo_order (h : heap) (self : ref) : option (list ref) :=
  snd <$> build_topo (length (objects h)) h self (∅, []).

Definition backward (self : ref) : M unit := λ h,
  match topo_order h self with
  | None => Stuck
  | Some topo =>
      (store_grad self 1;;
       for_each (λ v, n ← get v; call_backward (_backward n)) (reverse topo)) h
  end.

Definition __neg__ (self : ref) : M ref := __mul__ self (Num (-1)).


Definition __rmul__ (self : ref) (other : operand) : M ref :=
  __mul__ self other.

(** [self + (-other)]; the minus is the number's own when [other] is one. *)
Definition __sub__ (self : ref) (other : operand) : M ref :=
  match other with
  | Val o => n ← __neg__ o; __add__ self (Val n)
  | Num x => __add__ self (Num (- x))
  end.


(** [self * other**-1] *)
Definition __truediv__ (self : ref) (other : operand) : M ref :=
  match other with
  | Val o => p ← __pow__ o (ExpNum (-1)); __mul__ self (Val p)
  | Num x => p ← num_pow x (-1); __mul__ self (Num p)
  end.

(** [other * self**-1]; a number on the left of [*] defers to [__rmul__]. *)
Definition __rtruediv__ (self : ref) (other : operand) : M ref :=
  p ← __pow__ self (ExpNum (-1));
  match other with
  | Val o => __mul__ o (Val p)
  | Num x => __rmul__ p (Num x)
  end.

End Engine.

(** ** micrograd/nn.py *)

(** [Module.zero_grad], given the list [self.parameters()]. *)
Definition zero_grad (parameters : list ref) : M unit :=
  for_each (λ p, store_grad p 0) parameters.

(** ** The scenarios of the test suite and of the specification *)

Section Scenarios.

Variable iter_first : ref → ref → bool.

(** The builder interface of the specification: every argument a node. *)
Definition add (a b : ref) : M ref := __add__ iter_first a (Val b).
Definition mul (a b : ref) : M ref := __mul__ iter_first a (Val b).
Definition pow (a : ref) (n : Z) : M ref := __pow__ iter_first a (ExpNum n).

(** The derived operations as the specification words them. *)
Definition negate_spec (a : ref) : M ref :=
  m1 ← leaf iter_first (-1); mul a m1.
Definition sub_spec (a b : ref) : M ref :=
  nb ← negate_spec b; add a nb.
Definition div_spec (a b : ref) : M ref :=
  p ← pow b (-1); mul a p.


(** [x = Value(2.0); y = x ** 3; y.backward()] *)
Definition scenario_power : M (ref * ref) :=
  x ← leaf iter_first 2;
  y ← __pow__ iter_first x (ExpNum 3);
  backward y;;
  mret (x, y).

(** [x = Value(x0); y = x.relu(); y.backward()] *)
Definition scenario_relu (x0 : Q) : M (ref * ref) :=
  x ← leaf iter_first x0;
  y ← relu iter_first x;
  backward y;;
  mret (x, y).

(** The graph of the end-to-end scenario, every operation applied to
    nodes. *)
Definition sanity_graph : M (ref * ref) :=
  x ← leaf iter_first (-4);
  two ← leaf iter_first 2;
  t1 ← mul two x;
  two' ← leaf iter_first 2;
  t2 ← add t1 two';
  z ← add t2 x;
  rz ← relu iter_first z;
  zx ← mul z x;
  q ← add rz zx;
  zz ← mul z z;
  hh ← relu iter_first zz;
  hq ← add hh q;
  qx ← mul q x;
  y ← add hq qx;
  mret (x, y).

Definition scenario_sanity : M (ref * ref) :=
  '(x, y) ← sanity_graph;
  backward y;;
  mret (x, y).

(** The same graph as [test_sanity_check] writes it:
    [z = 2 * x + 2 + x; q = z.relu() + z * x; h = (z * z).relu();
     y = h + q + q * x]. *)
Definition test_sanity_graph : M (ref * ref) :=
  x ← leaf iter_first (-4);
  t1 ← __rmul__ iter_first x (Num 2);
  t2 ← __add__ iter_first t1 (Num 2);
  z ← add t2 x;
  rz ← relu iter_first z;
  zx ← mul z x;
  q ← add rz zx;
  zz ← mul z z;
  hh ← relu iter_first zz;
  hq ← add hh q;
  qx ← mul q x;
  y ← add hq qx;
  mret (x, y).

Definition test_sanity_check : M (ref * ref) :=
  '(x, y) ← test_sanity_graph;
  backward y;;
  mret (x, y).

End Scenarios.

(** What a finished call left in an attribute of the object it returned. *)
Definition data_at (h : heap) (v : ref) : option Q := data <$> objects h !! v.
Definition grad_at (h : heap) (v : ref) : option Q := grad <$> objects h !! v.
Definition prev_at (h : heap) (v : ref) : option (list ref) :=
  _prev <$> objects h !! v.

(** ** Well-formed heaps *)

(** The closure of object [v] captured [v] as [out] and older objects as
    operands. *)
Definition closure_wf (v : ref) (c : closure) : bool :=
  match c with
  | BNone => true
  | BAdd self other out | BMul self other out =>
      (out =? v)%nat && (self <? v)%nat && (other <? v)%nat
  | BPow self _ out | BRelu self out => (out =? v)%nat && (self <? v)%nat
  end.

Definition node_wf (v : ref) (n : Value) : bool :=
  forallb (λ c, (c <? v)%nat) (_prev n) && closure_wf v (_backward n).

Fixpoint objects_wf (v : ref) (l : list Value) : bool :=
  match l with
  | [] => true
  | n :: l' => node_wf v n && objects_wf (S v) l'
  end.

(** No object references an object created after it. *)
Definition heap_wf (h : heap) : Prop := objects_wf 0%nat (objects h) = true.

(** [reachable h r v]: a path of operand edges leads from [r] to [v]. *)
Inductive reachable (h : heap) (r : ref) : ref → Prop :=
| reach_refl : reachable h r r
| reach_step u n c :
    reachable h r u → objects h !! u = Some n → c ∈ _prev n →
    reachable h r c.

(** Every operand of an object is older than the object. *)
Definition prev_older (h : heap) : Prop :=
  ∀ v n c, objects h !! v = Some n → c ∈ _prev n → (c < v)%nat.

(** What [build_topo] maintains on [visited] and [topo]: [topo] has no
    duplicates, its elements are visited, and each of them comes after
    all its operands. *)
Definition topo_inv (h : heap) (visited : gset ref) (topo : list ref) : Prop :=
  NoDup topo
  ∧ (∀ x, x ∈ topo → x ∈ visited)
  ∧ (∀ i u n c, topo !! i = Some u → objects h !! u = Some n → c ∈ _prev n →
       ∃ j, (j < i)%nat ∧ topo !! j = Some c).

(** What a call of [build_topo], or the loop over the operands, adds:
    [seen] lists the new elements of [topo], which are exactly the newly
    visited objects, each reachable from one of [srcs]. *)
Definition topo_step (h : heap) (srcs : list ref)
    (st st' : gset ref * list ref) (seen : list ref) : Prop :=
  st'.2 = st.2 ++ seen
  ∧ topo_inv h st'.1 st'.2
  ∧ (∀ x, x ∈ st'.1 ↔ x ∈ st.1 ∨ x ∈ seen)
  ∧ (∀ x, x ∈ seen → x ∉ st.1)
  ∧ (∀ x, x ∈ seen → ∃ c, c ∈ srcs ∧ reachable h c x).

(** The two heaps hold the same objects up to their [grad] attributes. *)
Definition same_but_grad (h h' : heap) : Prop :=
  with_grad 0 <$> objects h = with_grad 0 <$> objects h'.

Definition is_accumulate (w : grad_write) : bool :=
  match w with Accumulate _ _ => true | Assign _ _ => false end.

(** From [h] to [h'] only [grad] attributes changed, and each write was
    an accumulation. *)
Definition accumulated (h h' : heap) : Prop :=
  same_but_grad h h'
  ∧ ∃ ws, writes h' = writes h ++ ws ∧ forallb is_accumulate ws = true.

(** The call [m] is not stuck from [h]; it returns or raises
    [ZeroDivisionError], having only accumulated gradients. *)
Definition accumulates {A : Type} (m : M A) (h : heap) : Prop :=
  match m h with
  | Ok _ h' => accumulated h h'
  | Raise e h' => e = ZeroDivisionError ∧ accumulated h h'
  | Stuck => False
  end.

(** The calls that make a node. *)
Inductive node_constructor (iter_first : ref → ref → bool) : M ref → Prop :=
| con_leaf x : node_constructor iter_first (leaf iter_first x)
| con_add a o : node_constructor iter_first (__add__ iter_first a o)
| con_mul a o : node_constructor iter_first (__mul__ iter_first a o)
| con_pow a e : node_constructor iter_first (__pow__ iter_first a e)
| con_relu a : node_constructor iter_first (relu iter_first a).

(** The heap a call leaves behind. *)
Definition final_heap {A : Type} (o : outcome A) : option heap :=
  match o with
  | Ok _ h | Raise _ h => Some h
  | Stuck => None
  end.



(** ** micrograd/nn.py: neurons, layers and networks *)

(** [h'] is [h] with objects appended, every gradient write of [h] kept
    and none added. *)
Definition extends (h h' : heap) : Prop :=
  writes h' = writes h ∧ ∃ new, objects h' = objects h ++ new.

Module nn.

(** The error the interpreter raises when a [Value] is iterated; a call
    of this module that raises it returns [inl TypeError] with the heap
    at the raise. *)
Inductive error : Type := TypeError.

(** What a module is called on and what it returns: a node, or a list
    of numbers and nodes. *)
Inductive activation : Type :=
| Single (v : ref)
| Many (xs : list operand).

Record Neuron : Type := mkNeuron {
  w : list ref;
  b : ref;
  nonlin : bool
}.

Record Layer : Type := mkLayer { neurons : list Neuron }.

Record MLP : Type := mkMLP { layers : list Layer }.

Section Modules.

Variable iter_first : ref → ref → bool.

(** [uniform k] is the number the [k]-th call of [random.uniform(-1, 1)]
    returns; the state of the generator is the count of calls made. *)
Variable uniform : nat → Q.

(** The object [Value(random.uniform(-1,1))] makes at state [k]. *)
Definition random_leaf (k : nat) : Value :=
  mkValue (uniform k) 0 BNone [] OpLeaf.

(** [[Value(random.uniform(-1,1)) for _ in range(nin)]] *)
Fixpoint random_leaves (nin k : nat) : M (list ref) :=
  match nin with
  | O => mret []
  | S nin' =>
      v ← leaf iter_first (uniform k);
      vs ← random_leaves nin' (S k);
      mret (v :: vs)
  end.

(** [Neuron(nin, nonlin)], from generator state [k]; returns the neuron
    and the new state. *)
Definition Neuron_init (nin : nat) (nonlin : bool) (k : nat)
    : M (Neuron * nat) :=
  ws ← random_leaves nin k;
  bias ← leaf iter_first 0;
  mret (mkNeuron ws bias nonlin, (k + nin)%nat).

(** [sum((wi*xi for wi,xi in pairs), acc)]: each product is made when
    the sum asks for it. *)
Fixpoint sum_products (pairs : list (ref * operand)) (acc : ref) : M ref :=
  match pairs with
  | [] => mret acc
  | (wi, xi) :: pairs' =>
      p ← __mul__ iter_first wi xi;
      acc' ← __add__ iter_first acc (Val p);
      sum_products pairs' acc'
  end.

(** [Neuron.__call__]; [zip] refuses a node. *)
Definition Neuron_call (n : Neuron) (x : activation) : M (error + ref) :=
  match x with
  | Single _ => mret (inl TypeError)
  | Many xs =>
      act ← sum_products (zip (w n) xs) (b n);
      out ← (if nonlin n then relu iter_first act else mret act);
      mret (inr out)
  end.

Definition Neuron_parameters (n : Neuron) : list ref := w n ++ [b n].

(** [[Neuron(nin, **kwargs) for _ in range(nout)]] *)
Fixpoint make_neurons (nin : nat) (nonlin : bool) (nout k : nat)
    : M (list Neuron * nat) :=
  match nout with
  | O => mret ([], k)
  | S nout' =>
      '(n, k1) ← Neuron_init nin nonlin k;
      '(ns, k2) ← make_neurons nin nonlin nout' k1;
      mret (n :: ns, k2)
  end.

(** [Layer(nin, nout, nonlin=nonlin)] *)
Definition Layer_init (nin nout : nat) (nonlin : bool) (k : nat)
    : M (Layer * nat) :=
  '(ns, k') ← make_neurons nin nonlin nout k;
  mret (mkLayer ns, k').

(** [[n(x) for n in neurons]] *)
Fixpoint call_each (ns : list Neuron) (x : activation)
    : M (error + list ref) :=
  match ns with
  | [] => mret (inr [])
  | n :: ns' =>
      r ← Neuron_call n x;
      match r with
      | inl e => mret (inl e)
      | inr v =>
          rs ← call_each ns' x;
          match rs with
          | inl e => mret (inl e)
          | inr vs => mret (inr (v :: vs))
          end
      end
  end.

(** [Layer.__call__]: [out[0] if len(out) == 1 else out] *)
Definition Layer_call (l : Layer) (x : activation) : M (error + activation) :=
  r ← call_each (neurons l) x;
  match r with
  | inl e => mret (inl e)
  | inr [v] => mret (inr (Single v))
  | inr vs => mret (inr (Many (Val <$> vs)))
  end.

Definition Layer_parameters (l : Layer) : list ref :=
  n ← neurons l; Neuron_parameters n.

(** [[Layer(sz[i], sz[i+1], nonlin=i!=len(nouts)-1) for i in idx]] *)
Fixpoint make_layers (sz : list nat) (count : nat) (idx : list nat) (k : nat)
    : M (list Layer * nat) :=
  match idx with
  | [] => mret ([], k)
  | i :: idx' =>
      '(l, k1) ← Layer_init (sz !!! i) (sz !!! S i)
                   (negb (Z.of_nat i =? Z.of_nat count - 1)%Z) k;
      '(ls, k2) ← make_layers sz count idx' k1;
      mret (l :: ls, k2)
  end.

(** [MLP(nin, nouts)] *)
Definition MLP_init (nin : nat) (nouts : list nat) (k : nat) : M (MLP * nat) :=
  let sz := nin :: nouts in
  '(ls, k') ← make_layers sz (length nouts) (seq 0 (length nouts)) k;
  mret (mkMLP ls, k').

(** [for layer in layers: x = layer(x)] *)
Fixpoint through (ls : list Layer) (x : activation) : M (error + activation) :=
  match ls with
  | [] => mret (inr x)
  | l :: ls' =>
      r ← Layer_call l x;
      match r with
      | inl e => mret (inl e)
      | inr x' => through ls' x'
      end
  end.

Definition MLP_call (m : MLP) (x : activation) : M (error + activation) :=
  through (layers m) x.

Definition MLP_parameters (m : MLP) : list ref :=
  l ← layers m; Layer_parameters l.

End Modules.

(** The number an argument stands for. *)
Definition operand_value (h : heap) (o : operand) : option Q :=
  match o with
  | Num c => Some c
  | Val v => data_at h v
  end.

(** [acc + w1*x1 + ... + wk*xk], summed as [sum] does. *)
Fixpoint dot (acc : Q) (pairs : list (Q * Q)) : Q :=
  match pairs with
  | [] => acc
  | (wi, xi) :: pairs' => dot (acc + wi * xi) pairs'
  end.

(** The parameters of the module are objects of the heap, and so are
    the nodes among the inputs. *)
Definition defined (h : heap) (v : ref) : Prop := is_Some (objects h !! v).

Definition Neuron_ok (h : heap) (n : Neuron) : Prop :=
  Forall (defined h) (w n) ∧ defined h (b n).

Definition Layer_ok (h : heap) (l : Layer) : Prop :=
  Forall (Neuron_ok h) (neurons l).

Definition inputs_ok (h : heap) (xs : list operand) : Prop :=
  Forall (λ o, is_Some (operand_value h o)) xs.

End nn.

(** ** Small graphs over arbitrary values *)

Section Rules.

Variable iter_first : ref → ref → bool.

(** [x = Value(x0); y = Value(y0); z = x * y] *)
Definition product_graph (x0 y0 : Q) : M (ref * ref * ref) :=
  x ← leaf iter_first x0;
  y ← leaf iter_first y0;
  z ← __mul__ iter_first x (Val y);
  mret (x, y, z).

(** [... ; z.backward()] *)
Definition scenario_product (x0 y0 : Q) : M (ref * ref * ref) :=
  '(x, y, z) ← product_graph x0 y0;
  backward z;;
  mret (x, y, z).

(** [x = Value(x0); z = x * x] *)
Definition square_graph (x0 : Q) : M (ref * ref) :=
  x ← leaf iter_first x0;
  z ← __mul__ iter_first x (Val x);
  mret (x, z).

(** [... ; z.backward()] *)
Definition scenario_square (x0 : Q) : M (ref * ref) :=
  '(x, z) ← square_graph x0;
  backward z;;
  mret (x, z).

(** [... ; z.backward(); z.backward()] *)
Definition scenario_backward_twice (x0 : Q) : M (ref * ref) :=
  '(x, z) ← square_graph x0;
  backward z;;
  backward z;;
  mret (x, z).

(** [... ; z.backward(); zero_grad() over [x]; z.backward()] *)
Definition scenario_backward_zero_backward (x0 : Q) : M (ref * ref) :=
  '(x, z) ← square_graph x0;
  backward z;;
  zero_grad [x];;
  backward z;;
  mret (x, z).

(** [x = Value(x0); y = x ** n] *)
Definition pow_graph (x0 : Q) (n : Z) : M (ref * ref) :=
  x ← leaf iter_first x0;
  y ← __pow__ iter_first x (ExpNum n);
  mret (x, y).

(** [... ; y.backward()] *)
Definition scenario_pow (x0 : Q) (n : Z) : M (ref * ref) :=
  '(x, y) ← pow_graph x0 n;
  backward y;;
  mret (x, y).

End Rules.

(** ** What a backward pass may touch *)

(** The operands the closure [c] accumulates into. *)
Definition closure_operands (c : closure) : list ref :=
  match c with
  | BNone => []
  | BAdd self other _ | BMul self other _ => [self; other]
  | BPow self _ _ | BRelu self _ => [self]
  end.

(** The closure of the object writes to members of its [_prev] only. *)
Definition node_linked (n : Value) : bool :=
  forallb (λ c, bool_decide (c ∈ _prev n)) (closure_operands (_backward n)).

Definition heap_linked (h : heap) : Prop :=
  forallb node_linked (objects h) = true.

(** Objects outside [P] are the same in [h'] as in [h]. *)
Definition unchanged_outside (P : ref → Prop) (h h' : heap) : Prop :=
  ∀ v, ¬ P v → objects h' !! v = objects h !! v.

(** Whatever the call [m] does from [h], it leaves the objects outside
    [P] as they are. *)
Definition confined {A : Type} (P : ref → Prop) (m : M A) (h : heap) : Prop :=
  match m h with
  | Ok _ h' | Raise _ h' => unchanged_outside P h h'
  | Stuck => True
  end.

(** ** The gradients a backward pass leaves *)


(** What [operand.grad += dx] adds to [v.grad]. *)
Definition use (v operand : ref) (dx : Q) : Q :=
  if decide (operand = v) then dx else 0.






(** * Properties *)

(** ** Running the monad *)

Section Run.

Context (iter_first : ref → ref → bool).

Lemma lookup_push_old h n v x :
  objects h !! v = Some x → objects (push h n) !! v = Some x.
Proof. intros H. by apply lookup_app_l_Some. Qed.

Lemma lookup_push_new h n : objects (push h n) !! length (objects h) = Some n.
Proof. simpl. by rewrite list_lookup_middle. Qed.

Lemma length_push h n : length (objects (push h n)) = S (length (objects h)).
Proof. simpl. rewrite length_app. simpl. lia. Qed.

Lemma init_eq d cs op h :
  __init__ iter_first d cs op h
  = Ok (length (objects h)) (push h (mkValue d 0 BNone (py_set iter_first cs) op)).
Proof. reflexivity. Qed.

Lemma get_Some v n h : objects h !! v = Some n → get v h = Ok n h.
Proof. unfold get. by intros ->. Qed.

Lemma get_None v h : objects h !! v = None → get v h = Stuck.
Proof. unfold get. by intros ->. Qed.

Lemma get_data_Some v n h : objects h !! v = Some n → get_data v h = Ok (data n) h.
Proof. intros H. unfold get_data, mbind, M_bind. by rewrite (get_Some _ _ _ H). Qed.

Lemma get_data_None v h : objects h !! v = None → get_data v h = Stuck.
Proof. intros H. unfold get_data, mbind, M_bind. by rewrite (get_None _ _ H). Qed.

Lemma set_backward_new h n c :
  set_backward (length (objects h)) c (push h n) = Ok tt (push h (with_backward c n)).
Proof.
  unfold set_backward. rewrite lookup_push_new. simpl.
  rewrite insert_app_r_alt by lia. by rewrite Nat.sub_diag.
Qed.

(** A binary operation on two existing objects appends its result. *)
Lemma add_val a b na nb h :
  objects h !! a = Some na → objects h !! b = Some nb →
  __add__ iter_first a (Val b) h
  = Ok (length (objects h))
       (push h (mkValue (data na + data nb) 0 (BAdd a b (length (objects h)))
                        (py_set iter_first [a; b]) OpAdd)).
Proof.
  intros Ha Hb. unfold __add__, mbind, M_bind, as_value, mret, M_ret.
  rewrite (get_data_Some _ _ _ Ha), (get_data_Some _ _ _ Hb), init_eq.
  by rewrite set_backward_new.
Qed.

Lemma mul_val a b na nb h :
  objects h !! a = Some na → objects h !! b = Some nb →
  __mul__ iter_first a (Val b) h
  = Ok (length (objects h))
       (push h (mkValue (data na * data nb) 0 (BMul a b (length (objects h)))
                        (py_set iter_first [a; b]) OpMul)).
Proof.
  intros Ha Hb. unfold __mul__, mbind, M_bind, as_value, mret, M_ret.
  rewrite (get_data_Some _ _ _ Ha), (get_data_Some _ _ _ Hb), init_eq.
  by rewrite set_backward_new.
Qed.

Lemma add_val_stuck a b h :
  objects h !! a = None ∨ objects h !! b = None →
  __add__ iter_first a (Val b) h = Stuck.
Proof.
  intros H. unfold __add__, mbind, M_bind, as_value, mret, M_ret.
  destruct (objects h !! a) as [na|] eqn:Ha.
  - destruct H as [?|Hb]; [done|].
    by rewrite (get_data_Some _ _ _ Ha), (get_data_None _ _ Hb).
  - by rewrite (get_data_None _ _ Ha).
Qed.

Lemma mul_val_stuck a b h :
  objects h !! a = None ∨ objects h !! b = None →
  __mul__ iter_first a (Val b) h = Stuck.
Proof.
  intros H. unfold __mul__, mbind, M_bind, as_value, mret, M_ret.
  destruct (objects h !! a) as [na|] eqn:Ha.
  - destruct H as [?|Hb]; [done|].
    by rewrite (get_data_Some _ _ _ Ha), (get_data_None _ _ Hb).
  - by rewrite (get_data_None _ _ Ha).
Qed.

(** A number is wrapped before anything else happens. *)
Lemma add_num a c h :
  __add__ iter_first a (Num c) h
  = __add__ iter_first a (Val (length (objects h)))
            (push h (mkValue c 0 BNone [] OpLeaf)).
Proof. reflexivity. Qed.

Lemma mul_num a c h :
  __mul__ iter_first a (Num c) h
  = __mul__ iter_first a (Val (length (objects h)))
            (push h (mkValue c 0 BNone [] OpLeaf)).
Proof. reflexivity. Qed.

Lemma pow_num a n na h :
  objects h !! a = Some na →
  __pow__ iter_first a (ExpNum n) h
  = if Qeq_bool (data na) 0 && (n <? 0)%Z then Raise ZeroDivisionError h
    else Ok (length (objects h))
            (push h (mkValue (Qpower (data na) n) 0
                             (BPow a n (length (objects h))) [a] (OpPow n))).
Proof.
  intros Ha. unfold __pow__, mbind, M_bind, num_pow.
  rewrite (get_data_Some _ _ _ Ha).
  destruct (Qeq_bool (data na) 0 && (n <? 0)%Z); [done|].
  unfold mret, M_ret. rewrite init_eq. by rewrite set_backward_new.
Qed.

Lemma pow_stuck a n h :
  objects h !! a = None → __pow__ iter_first a (ExpNum n) h = Stuck.
Proof.
  intros Ha. unfold __pow__, mbind, M_bind. by rewrite (get_data_None _ _ Ha).
Qed.

Lemma relu_val a na h :
  objects h !! a = Some na →
  relu iter_first a h
  = Ok (length (objects h))
       (push h (mkValue (if Qltb (data na) 0 then 0 else data na) 0
                        (BRelu a (length (objects h))) [a] OpRelu)).
Proof.
  intros Ha. unfold relu, mbind, M_bind, mret, M_ret.
  rewrite (get_data_Some _ _ _ Ha), init_eq. by rewrite set_backward_new.
Qed.

Lemma add_cases a b h :
  __add__ iter_first a (Val b) h = Stuck
  ∨ ∃ n, __add__ iter_first a (Val b) h = Ok (length (objects h)) (push h n)
         ∧ _op n = OpAdd ∧ grad n = 0.
Proof.
  destruct (objects h !! a) as [na|] eqn:Ha;
    [destruct (objects h !! b) as [nb|] eqn:Hb|].
  - right. eexists. by rewrite (add_val _ _ _ _ _ Ha Hb).
  - left. apply add_val_stuck. by right.
  - left. apply add_val_stuck. by left.
Qed.

Lemma mul_cases a b h :
  __mul__ iter_first a (Val b) h = Stuck
  ∨ ∃ n, __mul__ iter_first a (Val b) h = Ok (length (objects h)) (push h n)
         ∧ _op n = OpMul ∧ grad n = 0.
Proof.
  destruct (objects h !! a) as [na|] eqn:Ha;
    [destruct (objects h !! b) as [nb|] eqn:Hb|].
  - right. eexists. by rewrite (mul_val _ _ _ _ _ Ha Hb).
  - left. apply mul_val_stuck. by right.
  - left. apply mul_val_stuck. by left.
Qed.

Lemma pow_cases a k h :
  __pow__ iter_first a (ExpNum k) h = Stuck
  ∨ __pow__ iter_first a (ExpNum k) h = Raise ZeroDivisionError h
  ∨ ∃ n, __pow__ iter_first a (ExpNum k) h = Ok (length (objects h)) (push h n)
         ∧ _op n = OpPow k ∧ grad n = 0.
Proof.
  destruct (objects h !! a) as [na|] eqn:Ha.
  - rewrite (pow_num _ _ _ _ Ha).
    destruct (Qeq_bool (data na) 0 && (k <? 0)%Z); [by right; left|].
    right; right. by eexists.
  - left. by apply pow_stuck.
Qed.

Lemma relu_cases a h :
  relu iter_first a h = Stuck
  ∨ ∃ n, relu iter_first a h = Ok (length (objects h)) (push h n)
         ∧ _op n = OpRelu ∧ grad n = 0.
Proof.
  destruct (objects h !! a) as [na|] eqn:Ha.
  - right. eexists. by rewrite (relu_val _ _ _ Ha).
  - left. unfold relu, mbind, M_bind. by rewrite (get_data_None _ _ Ha).
Qed.

Lemma neg_cases a h :
  __neg__ iter_first a h = Stuck
  ∨ ∃ n, __neg__ iter_first a h
         = Ok (S (length (objects h)))
              (push (push h (mkValue (-1) 0 BNone [] OpLeaf)) n)
         ∧ _op n = OpMul ∧ grad n = 0.
Proof.
  unfold __neg__. rewrite mul_num.
  destruct (mul_cases a (length (objects h))
              (push h (mkValue (-1) 0 BNone [] OpLeaf)))
    as [-> | (n & -> & Hn & Hg)].
  - by left.
  - right. exists n. by rewrite length_push.
Qed.

Lemma data_at_push_new h n :
  data_at (push h n) (length (objects h)) = Some (data n).
Proof. unfold data_at. by rewrite lookup_push_new. Qed.

Lemma py_set_pair a b :
  let l := py_set iter_first [a; b] in
  NoDup l ∧ (∀ c, c ∈ l ↔ c = a ∨ c = b)
  ∧ length l = (if decide (a = b) then 1 else 2)%nat.
Proof.
  simpl. destruct (decide (a = b)) as [->|Hne].
  - split; [|split; [|done]].
    + apply NoDup_singleton.
    + intros c. rewrite list_elem_of_singleton. tauto.
  - destruct (iter_first a b); (split; [|split; [|done]]).
    + apply NoDup_cons. split; [|apply NoDup_singleton].
      rewrite list_elem_of_singleton. done.
    + intros c. rewrite !elem_of_cons, elem_of_nil. tauto.
    + apply NoDup_cons. split; [|apply NoDup_singleton].
      rewrite list_elem_of_singleton. done.
    + intros c. rewrite !elem_of_cons, elem_of_nil. tauto.
Qed.

End Run.

(** ** The scenarios *)

(** Case analysis on every iteration order the goal consults. *)
Ltac split_orders :=
  repeat match goal with
         | |- context [?f ?a ?b] =>
             match type of f with
             | ref → ref → bool => is_var f; destruct (f a b)
             end
         end.

(** Run a scenario: build the graph, then split on the orders met. *)
Ltac run_scenario graph :=
  let g := fresh "g" in
  let E := fresh "E" in
  unfold mbind, M_bind;
  match goal with
  | |- context [graph ?ord ?h] =>
      remember (graph ord h) as g eqn:E; vm_compute in E; subst g
  end;
  cbv beta iota; split_orders; vm_compute.

(** C7: for [x = leaf(2.0)] and [y = pow(x, 3)] the value of [y] is 8,
    and after [backward(y)] the gradient of [x] is 12. *)
Theorem power_rule (iter_first : ref → ref → bool) :
  ∃ x y h, scenario_power iter_first empty_heap = Ok (x, y) h
           ∧ data_at h y = Some 8 ∧ grad_at h x = Some 12.
Proof. by exists 0%nat, 1%nat; eexists; split; [|split]; vm_compute. Qed.

(** C8: [relu] of [leaf(-5.0)] has value 0 and leaves gradient 0 in the
    leaf; [relu] of [leaf(5.0)] has value 5 and leaves gradient 1. *)
Theorem relu_boundary (iter_first : ref → ref → bool) :
  (∃ x y h, scenario_relu iter_first (-5) empty_heap = Ok (x, y) h
            ∧ data_at h y = Some 0 ∧ grad_at h x = Some 0)
  ∧ (∃ x y h, scenario_relu iter_first 5 empty_heap = Ok (x, y) h
              ∧ data_at h y = Some 5 ∧ grad_at h x = Some 1).
Proof.
  split; by exists 0%nat, 1%nat; eexists; split; [|split]; vm_compute.
Qed.

(** C1: in the end-to-end scenario the root has value -20 and the
    gradient of [x] is 46, in whichever order the operand sets are
    iterated; the graph written with operators, as the test suite has
    it, gives the same. *)
Theorem sanity_check (iter_first : ref → ref → bool) :
  (∃ x y h, scenario_sanity iter_first empty_heap = Ok (x, y) h
            ∧ data_at h y = Some (-20) ∧ grad_at h x = Some 46)
  ∧ (∃ x y h, test_sanity_check iter_first empty_heap = Ok (x, y) h
              ∧ data_at h y = Some (-20) ∧ grad_at h x = Some 46).
Proof.
  split.
  - exists 0%nat, 13%nat. unfold scenario_sanity.
    run_scenario sanity_graph.
    all: by eexists; split; [reflexivity|split; vm_compute].
  - exists 0%nat, 13%nat. unfold test_sanity_check.
    run_scenario test_sanity_graph.
    all: by eexists; split; [reflexivity|split; vm_compute].
Qed.

(** ** The operations *)

(** C5: [pow] with a node for exponent fails at the call, with the
    assertion error; the heap at the failure is the heap of the call, so
    no object was made and none was changed. *)
Theorem pow_rejects_node_exponent (iter_first : ref → ref → bool)
    (h : heap) (a e : ref) :
  __pow__ iter_first a (ExpValue e) h = Raise AssertionError h.
Proof. reflexivity. Qed.

Ltac tags_in :=
  repeat (apply Forall_cons; split); [..|apply Forall_nil];
  simpl; repeat match goal with H : _op _ = _ |- _ => rewrite H end;
  rewrite ?elem_of_cons; auto 10.

(** C9: negation is [mul(a, leaf(-1))], subtraction is
    [add(a, negate(b))], division is [mul(a, pow(b, -1))]: the calls end
    alike in the same heap; and every object they add carries one of the
    primitive tags. *)
Theorem derived_ops_are_compositions (iter_first : ref → ref → bool)
    (h : heap) (a b : ref) :
  __neg__ iter_first a h = negate_spec iter_first a h
  ∧ __sub__ iter_first a (Val b) h = sub_spec iter_first a b h
  ∧ __truediv__ iter_first a (Val b) h = div_spec iter_first a b h
  ∧ ∀ o h', (o = __neg__ iter_first a h ∨ o = __sub__ iter_first a (Val b) h
             ∨ o = __truediv__ iter_first a (Val b) h) →
            final_heap o = Some h' →
            ∃ new, objects h' = objects h ++ new
                   ∧ Forall (λ n, _op n ∈ [OpLeaf; OpAdd; OpMul; OpPow (-1)]) new.
Proof.
  split; [reflexivity|]. split; [reflexivity|]. split; [reflexivity|].
  intros o h' [-> | [-> | ->]] Hfin.
  - destruct (neg_cases iter_first a h) as [E|(n & E & Hn & _)];
      rewrite E in Hfin; [done|]. simpl in Hfin. inversion Hfin; subst h'; clear Hfin.
    exists [mkValue (-1) 0 BNone [] OpLeaf; n]. split.
    + simpl. by rewrite <- app_assoc.
    + tags_in.
  - unfold __sub__, mbind, M_bind in Hfin.
    destruct (neg_cases iter_first b h) as [E|(n & E & Hn & _)];
      rewrite E in Hfin; [done|].
    match type of Hfin with
    | final_heap (__add__ _ ?x (Val ?y) ?g) = _ =>
        destruct (add_cases iter_first x y g) as [E'|(n' & E' & Hn' & _)]
    end; rewrite E' in Hfin; [done|]. simpl in Hfin. inversion Hfin; subst h'; clear Hfin.
    exists [mkValue (-1) 0 BNone [] OpLeaf; n; n']. split.
    + simpl. by rewrite <- !app_assoc.
    + tags_in.
  - unfold __truediv__, mbind, M_bind in Hfin.
    destruct (pow_cases iter_first b (-1) h) as [E|[E|(n & E & Hn & _)]];
      rewrite E in Hfin; [done| |].
    + simpl in Hfin. inversion Hfin; subst h'; clear Hfin. exists []. split; [by rewrite app_nil_r|constructor].
    + match type of Hfin with
      | final_heap (__mul__ _ ?x (Val ?y) ?g) = _ =>
          destruct (mul_cases iter_first x y g) as [E'|(n' & E' & Hn' & _)]
      end; rewrite E' in Hfin; [done|]. simpl in Hfin. inversion Hfin; subst h'; clear Hfin.
      exists [n; n']. split.
      * simpl. by rewrite <- !app_assoc.
      * tags_in.
Qed.

#[local] Arguments push : simpl never.

(** Find an object in a heap grown by allocations. *)
Ltac find_object :=
  first [ apply lookup_push_new
        | eassumption
        | apply lookup_push_old; find_object ].

(** Execute the next operation of a call on known objects. *)
Ltac exec :=
  first [ erewrite add_val by find_object
        | erewrite mul_val by find_object
        | erewrite relu_val by find_object
        | rewrite add_num
        | rewrite mul_num ].

(** C6, as the code has it: the operands are kept as a set.  A leaf has
    none, [relu] and [pow] have the one they were applied to, and
    [add(a, b)] and [mul(a, b)] have [a] and [b]: two operands when these
    are distinct objects and one when they are the same object.  Every
    operand was created before the node. *)
Theorem operands_form_a_set (iter_first : ref → ref → bool) (h : heap)
    (a b : ref) (na nb : Value) (x : Q) (k : Z) :
  objects h !! a = Some na → objects h !! b = Some nb →
  let out := length (objects h) in
  (∃ h', leaf iter_first x h = Ok out h' ∧ prev_at h' out = Some [])
  ∧ (∃ h', relu iter_first a h = Ok out h' ∧ prev_at h' out = Some [a])
  ∧ (__pow__ iter_first a (ExpNum k) h = Raise ZeroDivisionError h
     ∨ ∃ h', __pow__ iter_first a (ExpNum k) h = Ok out h'
             ∧ prev_at h' out = Some [a])
  ∧ (∀ op, op = __add__ ∨ op = __mul__ →
       ∃ h' l, op iter_first a (Val b) h = Ok out h'
               ∧ prev_at h' out = Some l
               ∧ NoDup l ∧ (∀ c, c ∈ l ↔ c = a ∨ c = b)
               ∧ length l = (if decide (a = b) then 1 else 2)%nat)
  ∧ (a < out)%nat ∧ (b < out)%nat.
Proof.
  intros Ha Hb out. subst out. unfold prev_at.
  split; [|split; [|split; [|split]]].
  - eexists. split; [reflexivity|]. by rewrite lookup_push_new.
  - eexists. split; [by exec|]. by rewrite lookup_push_new.
  - rewrite (pow_num _ _ _ _ _ Ha).
    destruct (Qeq_bool (data na) 0 && (k <? 0)%Z); [by left|right].
    eexists. split; [reflexivity|]. by rewrite lookup_push_new.
  - intros op [-> | ->]; do 2 eexists;
      (split; [by exec|]); rewrite lookup_push_new;
      (split; [reflexivity|]); apply py_set_pair.
  - split; eapply lookup_lt_Some; eassumption.
Qed.

(** C6 as stated fails: [add(a, a)] keeps a single operand. *)
Lemma operands_not_a_pair :
  ¬ (∀ (iter_first : ref → ref → bool) h a b out h',
       __add__ iter_first a (Val b) h = Ok out h' →
       ∃ l, prev_at h' out = Some l ∧ length l = 2%nat).
Proof.
  intros H.
  destruct (H (λ _ _, true) (push empty_heap (mkValue 3 0 BNone [] OpLeaf))
              0%nat 0%nat 1%nat
              (mkHeap [mkValue 3 0 BNone [] OpLeaf;
                       mkValue (3 + 3) 0 (BAdd 0%nat 0%nat 1%nat) [0%nat] OpAdd] []))
    as (l & Hl & Hlen); [reflexivity|].
  vm_compute in Hl. by simplify_eq.
Qed.

Lemma operands_form_a_set_witness :
  let h := push empty_heap (mkValue 3 0 BNone [] OpLeaf) in
  ∃ h' l, __add__ (λ _ _, true) 0%nat (Val 0%nat) h = Ok 1%nat h'
          ∧ prev_at h' 1%nat = Some l ∧ length l = 1%nat.
Proof.
  intros h.
  destruct (operands_form_a_set (λ _ _, true) h 0%nat 0%nat
              (mkValue 3 0 BNone [] OpLeaf) (mkValue 3 0 BNone [] OpLeaf)
              0 0%Z eq_refl eq_refl) as (_ & _ & _ & H & _).
  destruct (H __add__ (or_introl eq_refl)) as (h' & l & E & Hp & _ & _ & Hl).
  exists h', l. auto.
Defined.





(** ** Well-formed heaps *)

Open Scope nat_scope.

Lemma objects_wf_lookup l : ∀ b i n,
  objects_wf b l = true → l !! i = Some n → node_wf (b + i) n = true.
Proof.
  induction l as [|m l IH]; intros b i n Hwf Hi; [done|].
  simpl in Hwf. apply andb_true_iff in Hwf as [Hm Hl].
  destruct i as [|i]; simpl in Hi.
  - injection Hi as ->. by rewrite Nat.add_0_r.
  - replace (b + S i)%nat with (S b + i)%nat by lia. by apply IH.
Qed.

Lemma heap_wf_node h v n :
  heap_wf h → objects h !! v = Some n → node_wf v n = true.
Proof. intros Hwf Hv. by apply (objects_wf_lookup _ 0%nat v n Hwf). Qed.

Lemma heap_wf_prev_older h : heap_wf h → prev_older h.
Proof.
  intros Hwf v n c Hv Hc. apply (heap_wf_node _ _ _ Hwf) in Hv.
  apply andb_true_iff in Hv as [Hp _].
  rewrite forallb_forall in Hp. apply Nat.ltb_lt, Hp.
  by apply list_elem_of_In.
Qed.

(** ** The topological sort *)

Lemma reachable_trans h a b c :
  reachable h a b → reachable h b c → reachable h a c.
Proof.
  intros Hab Hbc. induction Hbc as [|u n c Hbu IH Hu Hc]; [done|].
  by eapply reach_step.
Qed.

Lemma reachable_older h r v : prev_older h → reachable h r v → (v ≤ r)%nat.
Proof.
  intros Hwf Hr. induction Hr as [|u n c Hru IH Hu Hc]; [done|].
  specialize (Hwf _ _ _ Hu Hc). lia.
Qed.

Lemma topo_inv_empty h : topo_inv h ∅ [].
Proof.
  split; [constructor|]. split; [by intros x ?%elem_of_nil|].
  by intros i u n c ?.
Qed.

(** Appending [v] once all its operands are in [topo]. *)
Lemma topo_inv_snoc h visited topo v n :
  topo_inv h visited topo → objects h !! v = Some n →
  v ∈ visited → v ∉ topo → (∀ c, c ∈ _prev n → c ∈ topo) →
  topo_inv h visited (topo ++ [v]).
Proof.
  intros (Hnd & Hsub & Hord) Hv HvV HvT Hcs. split; [|split].
  - apply NoDup_app. split; [done|]. split; [|apply NoDup_singleton].
    intros x Hx ->%list_elem_of_singleton. done.
  - intros x [Hx | ->%list_elem_of_singleton]%elem_of_app; auto.
  - intros i u m c Hi Hu Hc.
    destruct (decide (i < length topo)%nat) as [Hlt|Hge].
    + rewrite lookup_app_l in Hi by done.
      destruct (Hord _ _ _ _ Hi Hu Hc) as (j & Hj & Hjc).
      exists j. split; [done|]. rewrite lookup_app_l by lia. done.
    + rewrite lookup_app_r in Hi by lia.
      apply list_lookup_singleton_Some in Hi as [Hi ->].
      assert (m = n) as -> by congruence.
      apply Hcs, list_elem_of_lookup in Hc as [j Hj].
      exists j. pose proof (lookup_lt_Some _ _ _ Hj).
      split; [lia|]. by rewrite lookup_app_l.
Qed.

Lemma topo_inv_mono h visited visited' topo :
  topo_inv h visited topo → (∀ x, x ∈ visited → x ∈ visited') →
  topo_inv h visited' topo.
Proof. intros (Hnd & Hsub & Hord) HV. split; [done|]. split; auto. Qed.

Section BuildTopo.

Context (h : heap) (Hwf : prev_older h).

(** The loop over the operands of [v], given that the calls it makes
    behave. *)
Lemma for_each_operand depth v
  (IH : ∀ c visited topo,
      c < depth → c < length (objects h) → topo_inv h visited topo →
      (∀ x, x ∈ visited → x ∉ topo → c < x) →
      ∃ st' seen, build_topo depth h c (visited, topo) = Some st'
                  ∧ topo_step h [c] (visited, topo) st' seen ∧ c ∈ st'.2) :
  v ≤ depth → v < length (objects h) →
  ∀ cs visited topo,
    (∀ c, c ∈ cs → c < v) → topo_inv h visited topo →
    (∀ x, x ∈ visited → x ∉ topo → v ≤ x) →
    ∃ st' seen,
      for_each_local (build_topo depth h) cs (visited, topo) = Some st'
      ∧ topo_step h cs (visited, topo) st' seen
      ∧ (∀ c, c ∈ cs → c ∈ st'.2).
Proof.
  intros Hd Hv cs. induction cs as [|c cs IHcs]; intros V T Hcs Hinv Hstack.
  - exists (V, T), []. simpl. split; [done|]. split.
    + split; [by rewrite app_nil_r|]. split; [done|].
      split; [intros x; rewrite elem_of_nil; simpl; tauto|].
      split; by intros x ?%elem_of_nil.
    + by intros c ?%elem_of_nil.
  - assert (c < v) as Hc by (apply Hcs; left).
    destruct (IH c V T) as ([V1 T1] & s1 & E1 & (HT1 & Hinv1 & HV1 & Hnew1 & Hr1) & Hc1);
      [lia|lia|done|intros x Hx HxT; specialize (Hstack x Hx HxT); lia|].
    simpl in HT1, Hinv1, HV1, Hnew1, Hc1. subst T1.
    destruct (IHcs V1 (T ++ s1))
      as ([V2 T2] & s2 & E2 & (HT2 & Hinv2 & HV2 & Hnew2 & Hr2) & Hc2).
    { intros c' Hc'. apply Hcs. by right. }
    { done. }
    { intros x Hx HxT. apply Hstack.
      - apply HV1 in Hx as [?|Hx]; [done|].
        exfalso. apply HxT, elem_of_app. by right.
      - intros ?. apply HxT, elem_of_app. by left. }
    simpl in HT2, Hinv2, HV2, Hnew2, Hc2. subst T2.
    exists (V2, T ++ s1 ++ s2), (s1 ++ s2). simpl. rewrite E1. simpl.
    rewrite E2. rewrite <- app_assoc in *. split; [done|]. split.
    + split; [done|]. split; [done|]. simpl. split; [|split].
      * intros x. rewrite HV2, HV1, elem_of_app. tauto.
      * intros x [Hx|Hx]%elem_of_app; [by apply Hnew1|].
        intros HxV. apply (Hnew2 x Hx), HV1. by left.
      * intros x [Hx|Hx]%elem_of_app.
        -- destruct (Hr1 x Hx) as (c' & ->%list_elem_of_singleton & Hr).
           exists c. split; [left|done].
        -- destruct (Hr2 x Hx) as (c' & Hc' & Hr).
           exists c'. split; [by right|done].
    + intros c' [->|Hc']%elem_of_cons; [|by apply Hc2].
      rewrite !elem_of_app. rewrite elem_of_app in Hc1. tauto.
Qed.

(** A call of [build_topo] within the depth bound.  Objects that are
    visited and not yet in [topo] are the callers, all younger than [v]. *)
Lemma build_topo_call : ∀ depth v visited topo,
  v < depth → v < length (objects h) → topo_inv h visited topo →
  (∀ x, x ∈ visited → x ∉ topo → v < x) →
  ∃ st' seen, build_topo depth h v (visited, topo) = Some st'
              ∧ topo_step h [v] (visited, topo) st' seen ∧ v ∈ st'.2.
Proof.
  induction depth as [|depth IH]; intros v V T Hd Hv Hinv Hstack; [lia|].
  simpl. destruct (decide (v ∈ V)) as [HvV|HvV].
  - assert (v ∈ T) as HvT.
    { destruct (decide (v ∈ T)) as [|HvT]; [done|].
      specialize (Hstack v HvV HvT). lia. }
    exists (V, T), []. split; [done|]. split; [|done].
    split; [by rewrite app_nil_r|]. split; [done|].
    split; [intros x; rewrite elem_of_nil; simpl; tauto|].
    split; by intros x ?%elem_of_nil.
  - destruct (lookup_lt_is_Some_2 (objects h) v Hv) as [n Hn].
    rewrite Hn. simpl.
    assert (v ∉ T) as HvT by (intros ?; by apply HvV, Hinv).
    destruct (for_each_operand depth v IH ltac:(lia) Hv (_prev n) ({[v]} ∪ V) T)
      as ([V' T'] & s & E & (HT' & Hinv' & HV' & Hnew & Hr) & Hcs).
    { intros c Hc. by apply (Hwf v n c). }
    { eapply topo_inv_mono; [done|]. intros x ?. apply elem_of_union. by right. }
    { intros x [->%elem_of_singleton|Hx]%elem_of_union HxT; [done|].
      specialize (Hstack x Hx HxT). lia. }
    simpl in HT', Hinv', HV', Hnew, Hcs. subst T'. rewrite E. simpl.
    assert (v ∈ V') as HvV' by (apply HV'; left; apply elem_of_union; left;
                                by apply elem_of_singleton).
    assert (v ∉ T ++ s) as HvTs.
    { intros [?|Hs]%elem_of_app; [done|]. apply (Hnew v Hs).
      apply elem_of_union. left. by apply elem_of_singleton. }
    exists (V', (T ++ s) ++ [v]), (s ++ [v]). split; [done|]. simpl. split.
    + split; [by rewrite app_assoc|].
      split; [by eapply topo_inv_snoc|]. split; [|split].
      * intros x. rewrite HV', elem_of_union, elem_of_app, elem_of_singleton,
          list_elem_of_singleton. tauto.
      * intros x [Hx| ->%list_elem_of_singleton]%elem_of_app; [|done].
        intros HxV. apply (Hnew x Hx), elem_of_union. by right.
      * intros x Hx. exists v. split; [by left|].
        apply elem_of_app in Hx as [Hx| ->%list_elem_of_singleton];
          [|constructor].
        destruct (Hr x Hx) as (c & Hc & Hcx).
        eapply reachable_trans; [|done].
        eapply reach_step; [constructor|done..].
    + apply elem_of_app. right. by left.
Qed.

End BuildTopo.

(** The sort returns, and what it returns is a topological order of the
    objects reachable from the root. *)
Lemma topo_order_sorted (h : heap) (root : ref) :
  prev_older h → root < length (objects h) →
  ∃ topo, topo_order h root = Some topo
          ∧ NoDup topo
          ∧ (∀ v, v ∈ topo ↔ reachable h root v)
          ∧ (∀ u n c, u ∈ topo → objects h !! u = Some n → c ∈ _prev n →
               ∃ i j, topo !! i = Some c ∧ topo !! j = Some u ∧ i < j).
Proof.
  intros Hwf Hroot.
  destruct (build_topo_call h Hwf (length (objects h)) root ∅ [])
    as ([V T] & s & E & (HT & (Hnd & Hsub & Hord) & HV & Hnew & Hr) & Hin);
    [done|done|apply topo_inv_empty|by intros x ?%not_elem_of_empty|].
  simpl in HT, Hnd, Hsub, Hord, Hin. subst s.
  exists T. unfold topo_order. rewrite E. split; [done|]. split; [done|].
  split; [|].
  - intros v. split.
    + intros Hv. destruct (Hr v Hv) as (c & ->%list_elem_of_singleton & Hc).
      done.
    + intros Hv. induction Hv as [|u n c Hu IH Hn Hc]; [done|].
      apply list_elem_of_lookup in IH as [i Hi].
      destruct (Hord _ _ _ _ Hi Hn Hc) as (j & _ & Hj).
      by eapply list_elem_of_lookup_2.
  - intros u n c [j Hj]%list_elem_of_lookup Hn Hc.
    destruct (Hord _ _ _ _ Hj Hn Hc) as (i & Hlt & Hi). by exists i, j.
Qed.

(** C3: on a heap where operands are older than their consumers, as every
    heap the operations build is, the sort returns, and the sequence it
    returns holds each object reachable from the root exactly once, every
    operand at a smaller index than each of its consumers. *)
Theorem topological_order (h : heap) (root : ref) :
  heap_wf h → root < length (objects h) →
  ∃ topo, topo_order h root = Some topo
          ∧ NoDup topo
          ∧ (∀ v, v ∈ topo ↔ reachable h root v)
          ∧ (∀ u n c, u ∈ topo → objects h !! u = Some n → c ∈ _prev n →
               ∃ i j, topo !! i = Some c ∧ topo !! j = Some u ∧ i < j).
Proof.
  intros Hwf%heap_wf_prev_older Hroot. by apply topo_order_sorted.
Qed.

(** The graph of [y = x + x], sorted from [y]. *)
Lemma topological_order_witness :
  let h := mkHeap [mkValue 3 0 BNone [] OpLeaf;
                   mkValue 6 0 (BAdd 0 0 1) [0] OpAdd] [] in
  ∃ topo, topo_order h 1 = Some topo
          ∧ NoDup topo
          ∧ (∀ v, v ∈ topo ↔ reachable h 1 v)
          ∧ (∀ u n c, u ∈ topo → objects h !! u = Some n → c ∈ _prev n →
               ∃ i j, topo !! i = Some c ∧ topo !! j = Some u ∧ i < j).
Proof.
  intros h. apply (topological_order h 1); [reflexivity|simpl; lia].
Defined.

(** ** The writes to [grad] *)

Lemma same_but_grad_length h h' :
  same_but_grad h h' → length (objects h') = length (objects h).
Proof.
  intros H. apply (f_equal length) in H. by rewrite !length_fmap in H.
Qed.

Lemma same_but_grad_insert h v n g :
  objects h !! v = Some n →
  with_grad 0 <$> <[v := with_grad g n]> (objects h) = with_grad 0 <$> objects h.
Proof.
  intros Hv. rewrite list_fmap_insert. apply list_insert_id.
  rewrite list_lookup_fmap, Hv. done.
Qed.

Lemma objects_wf_forget l : ∀ b,
  objects_wf b (with_grad 0 <$> l) = objects_wf b l.
Proof. induction l as [|n l IH]; intros b; simpl; [done|]. by rewrite IH. Qed.

Lemma heap_wf_same_but_grad h h' : same_but_grad h h' → heap_wf h → heap_wf h'.
Proof.
  unfold heap_wf, same_but_grad. intros E Hwf.
  by rewrite <- objects_wf_forget, <- E, objects_wf_forget.
Qed.

Lemma accumulated_refl h : accumulated h h.
Proof. split; [done|]. exists []. by rewrite app_nil_r. Qed.

Lemma accumulated_trans h1 h2 h3 :
  accumulated h1 h2 → accumulated h2 h3 → accumulated h1 h3.
Proof.
  intros [E1 (w1 & W1 & A1)] [E2 (w2 & W2 & A2)]. split.
  - unfold same_but_grad in *. congruence.
  - exists (w1 ++ w2). rewrite W2, W1, app_assoc. split; [done|].
    by rewrite forallb_app, A1, A2.
Qed.

Lemma accumulated_length h h' :
  accumulated h h' → length (objects h') = length (objects h).
Proof. intros [E _]. by apply same_but_grad_length. Qed.

Lemma accumulates_ret {A : Type} (a : A) h : accumulates (mret a) h.
Proof. apply accumulated_refl. Qed.

Lemma accumulates_bind {A B : Type} (m : M A) (f : A → M B) h :
  accumulates m h →
  (∀ a h', m h = Ok a h' → accumulates (f a) h') →
  accumulates (m ≫= f) h.
Proof.
  unfold accumulates, mbind, M_bind. intros Hm Hf.
  destruct (m h) as [a h1|e h1|]; [|done..].
  specialize (Hf a h1 eq_refl).
  destruct (f a h1) as [b h2|e h2|]; [|destruct Hf as [-> Hf]; split; [done|]|done];
    by eapply accumulated_trans.
Qed.

Lemma accumulates_get v h : v < length (objects h) → accumulates (get v) h.
Proof.
  intros [n Hn]%lookup_lt_is_Some_2. unfold accumulates.
  rewrite (get_Some _ _ _ Hn). apply accumulated_refl.
Qed.

Lemma accumulates_get_data v h :
  v < length (objects h) → accumulates (get_data v) h.
Proof.
  intros Hv. apply accumulates_bind; [by apply accumulates_get|].
  intros. apply accumulates_ret.
Qed.

Lemma accumulates_get_grad v h :
  v < length (objects h) → accumulates (get_grad v) h.
Proof.
  intros Hv. apply accumulates_bind; [by apply accumulates_get|].
  intros. apply accumulates_ret.
Qed.

Lemma accumulates_iadd v dx h :
  v < length (objects h) → accumulates (iadd_grad v dx) h.
Proof.
  intros [n Hn]%lookup_lt_is_Some_2. unfold accumulates, iadd_grad.
  rewrite Hn. split.
  - unfold same_but_grad. simpl. symmetry. by apply same_but_grad_insert.
  - by exists [Accumulate v dx].
Qed.

Lemma accumulates_num_pow x n h : accumulates (num_pow x n) h.
Proof.
  unfold accumulates, num_pow.
  destruct (Qeq_bool x 0 && (n <? 0)%Z); simpl;
    [split; [done|]|]; apply accumulated_refl.
Qed.

(** What a step that returns leaves unchanged. *)
Lemma accumulates_Ok_length {A : Type} (m : M A) h a h' :
  accumulates m h → m h = Ok a h' → length (objects h') = length (objects h).
Proof.
  unfold accumulates. intros H E. rewrite E in H. by apply accumulated_length.
Qed.

(** One step of a call that accumulates; the lengths of the arenas met
    so far are kept as equations. *)
Ltac acc_prim :=
  first [ apply accumulates_get_data; lia
        | apply accumulates_get_grad; lia
        | apply accumulates_iadd; lia
        | apply accumulates_num_pow
        | apply accumulates_ret ].

Ltac acc_bind :=
  match goal with
  | |- accumulates (?m ≫= ?f) ?h =>
      let Hm := fresh "Hm" in
      let a := fresh "a" in
      let h' := fresh "h" in
      let E := fresh "E" in
      assert (Hm : accumulates m h) by acc_prim;
      apply (accumulates_bind _ _ _ Hm);
      intros a h' E;
      apply (accumulates_Ok_length _ _ _ _ Hm) in E; clear Hm
  end.

Lemma accumulates_call_backward c v h :
  closure_wf v c = true → v < length (objects h) →
  accumulates (call_backward c) h.
Proof.
  intros Hc Hv.
  destruct c as [|self other out|self other out|self k out|self out];
    simpl in Hc; rewrite ?andb_true_iff, ?Nat.eqb_eq, ?Nat.ltb_lt in Hc;
    simpl; repeat acc_bind; acc_prim.
Qed.

Lemma accumulates_for_each {A : Type} (body : A → M unit) l : ∀ h,
  (∀ x h', x ∈ l → accumulated h h' → accumulates (body x) h') →
  accumulates (for_each body l) h.
Proof.
  induction l as [|x l IH]; intros h Hbody; simpl.
  - apply accumulates_ret.
  - assert (accumulates (body x) h) as Hx.
    { apply Hbody; [left|apply accumulated_refl]. }
    apply accumulates_bind; [done|]. intros [] h1 E. apply IH.
    intros y h' Hy Hh'. apply Hbody; [by right|].
    eapply accumulated_trans; [|done].
    unfold accumulates in Hx. by rewrite E in Hx.
Qed.

(** The loop of [backward] over a list of objects of a well-formed heap. *)
Lemma accumulates_backward_loop h l :
  heap_wf h → (∀ v, v ∈ l → v < length (objects h)) →
  accumulates (for_each (λ v, n ← get v; call_backward (_backward n)) l) h.
Proof.
  intros Hwf Hl. apply accumulates_for_each. intros v h' Hv Hacc.
  pose proof (accumulated_length _ _ Hacc) as Hlen.
  assert (heap_wf h') as Hwf' by (by eapply heap_wf_same_but_grad; [apply Hacc|]).
  specialize (Hl v Hv).
  apply accumulates_bind; [apply accumulates_get; lia|].
  intros n h'' E. unfold get in E.
  destruct (objects h' !! v) as [n'|] eqn:Hn; [|done].
  injection E as -> ->.
  apply (accumulates_call_backward _ v); [|lia].
  apply (heap_wf_node _ _ _ Hwf') in Hn.
  by apply andb_true_iff in Hn as [_ ?].
Qed.

(** [backward] on a well-formed heap returns, or raises from a power
    rule at zero; it assigns 1 to the gradient of the root and from then
    on only accumulates. *)
Lemma backward_not_stuck h root :
  heap_wf h → root < length (objects h) →
  ∃ h' ws,
    (backward root h = Ok tt h' ∨ backward root h = Raise ZeroDivisionError h')
    ∧ writes h' = writes h ++ Assign root 1 :: ws
    ∧ forallb is_accumulate ws = true
    ∧ same_but_grad h h'.
Proof.
  intros Hwf Hroot.
  destruct (topo_order_sorted h root (heap_wf_prev_older _ Hwf) Hroot)
    as (topo & E & _ & Hreach & _).
  destruct (lookup_lt_is_Some_2 _ _ Hroot) as [n Hn].
  unfold backward. rewrite E. unfold mbind, M_bind, store_grad. rewrite Hn.
  set (h1 := mkHeap (<[root := with_grad 1 n]> (objects h))
                    (writes h ++ [Assign root 1])).
  assert (same_but_grad h h1) as Hsame.
  { unfold same_but_grad. simpl. symmetry. by apply same_but_grad_insert. }
  pose proof (accumulates_backward_loop h1 (reverse topo)) as Hloop.
  unfold accumulates in Hloop.
  destruct (for_each _ (reverse topo) h1) as [[] h'|e h'|].
  - destruct Hloop as [Hs (ws & Hws & Hacc)].
    + by eapply heap_wf_same_but_grad.
    + intros v Hv%elem_of_reverse%Hreach.
      apply (reachable_older _ _ _ (heap_wf_prev_older _ Hwf)) in Hv.
      rewrite (same_but_grad_length _ _ Hsame). lia.
    + exists h', ws. split; [by left|]. split.
      * rewrite Hws. simpl. by rewrite <- app_assoc.
      * split; [done|]. unfold same_but_grad in *. congruence.
  - destruct Hloop as [-> [Hs (ws & Hws & Hacc)]].
    + by eapply heap_wf_same_but_grad.
    + intros v Hv%elem_of_reverse%Hreach.
      apply (reachable_older _ _ _ (heap_wf_prev_older _ Hwf)) in Hv.
      rewrite (same_but_grad_length _ _ Hsame). lia.
    + exists h', ws. split; [by right|]. split.
      * rewrite Hws. simpl. by rewrite <- app_assoc.
      * split; [done|]. unfold same_but_grad in *. congruence.
  - exfalso. apply Hloop.
    + by eapply heap_wf_same_but_grad.
    + intros v Hv%elem_of_reverse%Hreach.
      apply (reachable_older _ _ _ (heap_wf_prev_older _ Hwf)) in Hv.
      rewrite (same_but_grad_length _ _ Hsame). lia.
Qed.

(** [zero_grad] assigns 0 to each parameter in turn. *)
Lemma zero_grad_assigns ps : ∀ h,
  Forall (λ p, p < length (objects h)) ps →
  ∃ h', zero_grad ps h = Ok tt h'
        ∧ writes h' = writes h ++ ((λ p, Assign p 0) <$> ps)
        ∧ same_but_grad h h'.
Proof.
  unfold zero_grad.
  induction ps as [|p ps IH]; intros h Hps; simpl.
  - exists h. by rewrite app_nil_r.
  - apply Forall_cons in Hps as [Hp Hps].
    destruct (lookup_lt_is_Some_2 _ _ Hp) as [n Hn].
    unfold mbind, M_bind, store_grad. rewrite Hn.
    set (h1 := mkHeap (<[p := with_grad 0 n]> (objects h))
                      (writes h ++ [Assign p 0])).
    assert (same_but_grad h h1) as Hsame.
    { unfold same_but_grad. simpl. symmetry. by apply same_but_grad_insert. }
    destruct (IH h1) as (h' & E & Hw & Hs).
    { by rewrite (same_but_grad_length _ _ Hsame). }
    exists h'. split; [done|]. split.
    + rewrite Hw. simpl. by rewrite <- app_assoc.
    + unfold same_but_grad in *. congruence.
Qed.

(** A call that makes a node writes no gradient and changes no object:
    it appends objects of gradient 0. *)
Lemma node_constructor_appends iter_first m h h' :
  node_constructor iter_first m → final_heap (m h) = Some h' →
  writes h' = writes h
  ∧ ∃ new, objects h' = objects h ++ new ∧ Forall (λ n, grad n = 0%Q) new.
Proof.
  intros Hm Hfin. destruct Hm as [x|a [c|b]|a [c|b]|a [k|e]|a].
  - simpl in Hfin. injection Hfin as <-. split; [done|].
    eexists [_]. split; [done|]. by repeat constructor.
  - rewrite add_num in Hfin.
    match type of Hfin with
    | final_heap (__add__ _ ?x (Val ?y) ?g) = _ =>
        destruct (add_cases iter_first x y g) as [E|(n & E & _ & Hg)]
    end; rewrite E in Hfin; [done|]. simpl in Hfin. injection Hfin as <-.
    split; [done|]. eexists [_; n]. simpl. rewrite <- app_assoc.
    split; [done|]. by repeat constructor.
  - destruct (add_cases iter_first a b h) as [E|(n & E & _ & Hg)];
      rewrite E in Hfin; [done|]. simpl in Hfin. injection Hfin as <-.
    split; [done|]. exists [n]. split; [done|]. by repeat constructor.
  - rewrite mul_num in Hfin.
    match type of Hfin with
    | final_heap (__mul__ _ ?x (Val ?y) ?g) = _ =>
        destruct (mul_cases iter_first x y g) as [E|(n & E & _ & Hg)]
    end; rewrite E in Hfin; [done|]. simpl in Hfin. injection Hfin as <-.
    split; [done|]. eexists [_; n]. simpl. rewrite <- app_assoc.
    split; [done|]. by repeat constructor.
  - destruct (mul_cases iter_first a b h) as [E|(n & E & _ & Hg)];
      rewrite E in Hfin; [done|]. simpl in Hfin. injection Hfin as <-.
    split; [done|]. exists [n]. split; [done|]. by repeat constructor.
  - destruct (pow_cases iter_first a k h) as [E|[E|(n & E & _ & Hg)]];
      rewrite E in Hfin; [done| |]; simpl in Hfin; injection Hfin as <-.
    + split; [done|]. exists []. by rewrite app_nil_r.
    + split; [done|]. exists [n]. split; [done|]. by repeat constructor.
  - simpl in Hfin. injection Hfin as <-. split; [done|].
    exists []. by rewrite app_nil_r.
  - destruct (relu_cases iter_first a h) as [E|(n & E & _ & Hg)];
      rewrite E in Hfin; [done|]. simpl in Hfin. injection Hfin as <-.
    split; [done|]. exists [n]. split; [done|]. by repeat constructor.
Qed.

(** ** Every heap the engine builds is well-formed *)

Lemma objects_wf_snoc l n : ∀ b,
  objects_wf b (l ++ [n]) = objects_wf b l && node_wf (b + length l) n.
Proof.
  induction l as [|m l IH]; intros b; simpl.
  - by rewrite Nat.add_0_r, andb_true_r.
  - rewrite IH, andb_assoc. by replace (S b + length l) with (b + S (length l)) by lia.
Qed.

Lemma heap_wf_push h n :
  heap_wf h → node_wf (length (objects h)) n = true → heap_wf (push h n).
Proof.
  unfold heap_wf. simpl. intros Hwf Hn. by rewrite objects_wf_snoc, Hwf.
Qed.

Lemma heap_wf_empty : heap_wf empty_heap.
Proof. reflexivity. Qed.

Lemma py_set_pair_older iter_first a b v :
  a < v → b < v → forallb (λ c, c <? v) (py_set iter_first [a; b]) = true.
Proof.
  intros Ha%Nat.ltb_lt Hb%Nat.ltb_lt. simpl.
  destruct (decide (a = b)); [|destruct (iter_first a b)]; simpl;
    by rewrite ?Ha, ?Hb.
Qed.

Lemma heap_wf_binop iter_first op a b h h' :
  op = __add__ ∨ op = __mul__ →
  heap_wf h → final_heap (op iter_first a (Val b) h) = Some h' → heap_wf h'.
Proof.
  intros Hop Hwf Hfin.
  destruct (objects h !! a) as [na|] eqn:Ha;
    [destruct (objects h !! b) as [nb|] eqn:Hb|].
  - pose proof (lookup_lt_Some _ _ _ Ha) as Hla.
    pose proof (lookup_lt_Some _ _ _ Hb) as Hlb.
    destruct Hop as [-> | ->];
      [rewrite (add_val _ _ _ _ _ _ Ha Hb) in Hfin
      |rewrite (mul_val _ _ _ _ _ _ Ha Hb) in Hfin];
      simpl in Hfin; injection Hfin as <-;
      (apply heap_wf_push; [done|]); unfold node_wf; cbn [_prev _backward];
      pose proof (py_set_pair_older iter_first a b _ Hla Hlb) as Hp;
      simpl in Hp; rewrite Hp; simpl;
      apply Nat.ltb_lt in Hla, Hlb; by rewrite Nat.eqb_refl, Hla, Hlb.
  - destruct Hop as [-> | ->];
      [rewrite add_val_stuck in Hfin by (by right)
      |rewrite mul_val_stuck in Hfin by (by right)]; done.
  - destruct Hop as [-> | ->];
      [rewrite add_val_stuck in Hfin by (by left)
      |rewrite mul_val_stuck in Hfin by (by left)]; done.
Qed.

Lemma heap_wf_leaf h x : heap_wf h → heap_wf (push h (mkValue x 0 BNone [] OpLeaf)).
Proof. intros Hwf. by apply heap_wf_push. Qed.

(** The calls that make a node keep the heap well-formed. *)
Lemma node_constructor_wf iter_first m h h' :
  node_constructor iter_first m → heap_wf h → final_heap (m h) = Some h' →
  heap_wf h'.
Proof.
  intros Hm Hwf Hfin. destruct Hm as [x|a [c|b]|a [c|b]|a [k|e]|a].
  - simpl in Hfin. injection Hfin as <-. by apply heap_wf_leaf.
  - rewrite add_num in Hfin.
    eapply (heap_wf_binop _ __add__); [by left|by apply heap_wf_leaf|done].
  - eapply (heap_wf_binop _ __add__); [by left|done..].
  - rewrite mul_num in Hfin.
    eapply (heap_wf_binop _ __mul__); [by right|by apply heap_wf_leaf|done].
  - eapply (heap_wf_binop _ __mul__); [by right|done..].
  - destruct (objects h !! a) as [na|] eqn:Ha.
    + rewrite (pow_num _ _ _ _ _ Ha) in Hfin.
      destruct (Qeq_bool (data na) 0 && (k <? 0)%Z); simpl in Hfin;
        injection Hfin as <-; [done|].
      apply heap_wf_push; [done|]. unfold node_wf. simpl.
      apply lookup_lt_Some, Nat.ltb_lt in Ha. by rewrite Nat.eqb_refl, Ha.
    + by rewrite pow_stuck in Hfin.
  - simpl in Hfin. by injection Hfin as <-.
  - destruct (objects h !! a) as [na|] eqn:Ha.
    + rewrite (relu_val _ _ _ _ Ha) in Hfin. simpl in Hfin.
      injection Hfin as <-.
      apply heap_wf_push; [done|]. unfold node_wf. simpl.
      apply lookup_lt_Some, Nat.ltb_lt in Ha. by rewrite Nat.eqb_refl, Ha.
    + destruct (relu_cases iter_first a h) as [E|(n & E & _)];
        rewrite E in Hfin; [done|].
      unfold relu, mbind, M_bind in E. by rewrite (get_data_None _ _ Ha) in E.
Qed.

(** So do [backward] and [zero_grad]. *)
Lemma backward_wf h root h' :
  heap_wf h → root < length (objects h) →
  final_heap (backward root h) = Some h' → heap_wf h'.
Proof.
  intros Hwf Hroot Hfin.
  destruct (backward_not_stuck h root Hwf Hroot)
    as (h1 & ws & [E|E] & _ & _ & Hs); rewrite E in Hfin;
    simpl in Hfin; injection Hfin as <-; by eapply heap_wf_same_but_grad.
Qed.

(** ** The claims on gradient writes *)

(** C4 as stated fails: [backward] starts by assigning 1 to the gradient
    of the root, whatever it held. *)
Lemma backward_assigns_root_grad :
  ¬ (∀ h root h', heap_wf h → backward root h = Ok tt h' →
       ∃ ws, writes h' = writes h ++ ws ∧ forallb is_accumulate ws = true).
Proof.
  intros H.
  destruct (H (mkHeap [mkValue 3 5 BNone [] OpLeaf] []) 0
              (mkHeap [mkValue 3 1 BNone [] OpLeaf] [Assign 0 1]))
    as (ws & Hws & Hacc); [reflexivity..|].
  simpl in Hws. by subst ws.
Qed.

(** C4, as the code has it.  Once a node exists, its gradient is written
    by [backward], which assigns 1 to the gradient of its root and then
    only accumulates, and by [zero_grad], which assigns 0; neither
    changes another attribute of any object.  The calls that make a node
    write no gradient and change no object: they append objects of
    gradient 0. *)
Theorem grad_writes (iter_first : ref → ref → bool) (h : heap) (root : ref)
    (parameters : list ref) :
  heap_wf h → root < length (objects h) →
  Forall (λ p, p < length (objects h)) parameters →
  (∃ h' ws,
     (backward root h = Ok tt h' ∨ backward root h = Raise ZeroDivisionError h')
     ∧ writes h' = writes h ++ Assign root 1 :: ws
     ∧ forallb is_accumulate ws = true
     ∧ same_but_grad h h')
  ∧ (∃ h', zero_grad parameters h = Ok tt h'
           ∧ writes h' = writes h ++ ((λ p, Assign p 0) <$> parameters)
           ∧ same_but_grad h h')
  ∧ (∀ m h', node_constructor iter_first m → final_heap (m h) = Some h' →
       writes h' = writes h
       ∧ ∃ new, objects h' = objects h ++ new
                ∧ Forall (λ n, grad n = 0%Q) new).
Proof.
  intros Hwf Hroot Hps. split; [|split].
  - by apply backward_not_stuck.
  - by apply zero_grad_assigns.
  - intros m h' Hm Hfin. by eapply node_constructor_appends.
Qed.

(** On the graph of [y = x + x], where [x] already holds gradient 2. *)
Lemma grad_writes_witness :
  let h := mkHeap [mkValue 3 2 BNone [] OpLeaf;
                   mkValue 6 1 (BAdd 0 0 1) [0] OpAdd] [] in
  ∃ h' ws,
    (backward 1 h = Ok tt h' ∨ backward 1 h = Raise ZeroDivisionError h')
    ∧ writes h' = Assign 1 1 :: ws
    ∧ forallb is_accumulate ws = true
    ∧ same_but_grad h h'.
Proof.
  intros h.
  destruct (grad_writes (λ _ _, true) h 1 [0]) as [H _];
    [reflexivity|simpl; lia|repeat constructor|].
  exact H.
Defined.


(** C9 on two leaves: [a - b] leaves the heap of [add(a, negate(b))],
    which grew by a leaf, a product and a sum. *)
Lemma derived_ops_are_compositions_witness :
  let h := push (push empty_heap (mkValue 7 0 BNone [] OpLeaf))
                (mkValue 2 0 BNone [] OpLeaf) in
  __sub__ (λ _ _, true) 0 (Val 1) h = sub_spec (λ _ _, true) 0 1 h
  ∧ ∃ new, _op <$> new = [OpLeaf; OpMul; OpAdd]
           ∧ Forall (λ n, _op n ∈ [OpLeaf; OpAdd; OpMul; OpPow (-1)]) new.
Proof.
  intros h.
  destruct (derived_ops_are_compositions (λ _ _, true) h 0 1)
    as (_ & Hsub & _ & Htags).
  split; [exact Hsub|].
  destruct (Htags (__sub__ (λ _ _, true) 0 (Val 1) h)
              (mkHeap (objects h ++
                 [mkValue (-1) 0 BNone [] OpLeaf;
                  mkValue (2 * -1) 0 (BMul 1 2 3) [1; 2] OpMul;
                  mkValue (7 + 2 * -1) 0 (BAdd 0 3 4) [0; 3] OpAdd]) [])
              (or_intror (or_introl eq_refl)) eq_refl)
    as (new & Hnew & Hall).
  exists new. split; [|exact Hall].
  apply app_inv_head in Hnew. by subst new.
Defined.

(** * Further properties of the engine *)

(** ** What a backward pass touches *)

Section Confined.

Context (P : ref → Prop).

Lemma unchanged_outside_refl h : unchanged_outside P h h.
Proof. by intros v _. Qed.

Lemma unchanged_outside_trans h1 h2 h3 :
  unchanged_outside P h1 h2 → unchanged_outside P h2 h3 →
  unchanged_outside P h1 h3.
Proof. intros H12 H23 v Hv. by rewrite (H23 v Hv), (H12 v Hv). Qed.

Lemma confined_ret {A : Type} (a : A) h : confined P (mret a) h.
Proof. apply unchanged_outside_refl. Qed.

Lemma confined_bind {A B : Type} (m : M A) (f : A → M B) h :
  confined P m h → (∀ a h', m h = Ok a h' → confined P (f a) h') →
  confined P (m ≫= f) h.
Proof.
  unfold confined, mbind, M_bind. intros Hm Hf.
  destruct (m h) as [a h1|e h1|]; [|done..].
  specialize (Hf a h1 eq_refl).
  destruct (f a h1) as [b h2|e h2|]; [| |done];
    by eapply unchanged_outside_trans.
Qed.

Lemma confined_get v h : confined P (get v) h.
Proof.
  unfold confined, get. destruct (objects h !! v); [|done].
  apply unchanged_outside_refl.
Qed.

Lemma confined_get_data v h : confined P (get_data v) h.
Proof.
  apply confined_bind; [apply confined_get|]. intros. apply confined_ret.
Qed.

Lemma confined_get_grad v h : confined P (get_grad v) h.
Proof.
  apply confined_bind; [apply confined_get|]. intros. apply confined_ret.
Qed.

Lemma confined_num_pow x n h : confined P (num_pow x n) h.
Proof.
  unfold confined, num_pow.
  destruct (Qeq_bool x 0 && (n <? 0)%Z); apply unchanged_outside_refl.
Qed.

Lemma confined_iadd v dx h : P v → confined P (iadd_grad v dx) h.
Proof.
  intros Hv. unfold confined, iadd_grad.
  destruct (objects h !! v) as [n|]; [|done].
  intros u Hu. simpl. apply list_lookup_insert_ne. by intros ->.
Qed.

Ltac confined_step :=
  first [ apply confined_get_data | apply confined_get_grad
        | apply confined_num_pow | apply confined_ret
        | apply confined_iadd; auto
        | apply confined_bind; [|intros ? ? _] ].

Lemma confined_call_backward c h :
  Forall P (closure_operands c) → confined P (call_backward c) h.
Proof.
  intros Hc.
  destruct c as [|self other out|self other out|self k out|self out];
    simpl in Hc; rewrite ?Forall_cons in Hc; simpl;
    repeat confined_step; tauto.
Qed.

Lemma confined_for_each {A : Type} (body : A → M unit) l : ∀ h,
  (∀ x h', x ∈ l → accumulated h h' →
     accumulates (body x) h' ∧ confined P (body x) h') →
  confined P (for_each body l) h.
Proof.
  induction l as [|x l IH]; intros h Hbody; simpl.
  - apply confined_ret.
  - destruct (Hbody x h) as [Hacc Hcon]; [left|apply accumulated_refl|].
    apply confined_bind; [done|]. intros [] h1 E. apply IH.
    intros y h' Hy Hh'. apply Hbody; [by right|].
    eapply accumulated_trans; [|done].
    unfold accumulates in Hacc. by rewrite E in Hacc.
Qed.

End Confined.

Lemma same_but_grad_lookup h h' v n' :
  same_but_grad h h' → objects h' !! v = Some n' →
  ∃ n, objects h !! v = Some n ∧ n' = with_grad (grad n') n.
Proof.
  intros E Hv. apply (f_equal (λ l, l !! v)) in E.
  rewrite !list_lookup_fmap, Hv in E.
  destruct (objects h !! v) as [n|]; [|done].
  exists n. split; [done|]. simpl in E. injection E as Hd Hb Hp Ho.
  destruct n, n'; simpl in *. by subst.
Qed.

Lemma heap_linked_node h v n :
  heap_linked h → objects h !! v = Some n →
  Forall (λ c, c ∈ _prev n) (closure_operands (_backward n)).
Proof.
  intros Hl Hv. unfold heap_linked in Hl. rewrite forallb_forall in Hl.
  specialize (Hl n). unfold node_linked in Hl.
  rewrite forallb_forall in Hl. apply Forall_forall. intros c Hc.
  eapply bool_decide_eq_true_1, Hl; [|by apply list_elem_of_In].
  apply list_elem_of_In. by eapply list_elem_of_lookup_2.
Qed.

(** The loop of [backward] writes to proper descendants of the root. *)
Lemma backward_loop_confined h h1 root topo :
  heap_wf h → heap_linked h → same_but_grad h h1 →
  (∀ v, v ∈ topo → reachable h root v) → root < length (objects h) →
  confined (λ v, reachable h root v ∧ v ≠ root)
           (for_each (λ v, n ← get v; call_backward (_backward n)) topo) h1.
Proof.
  intros Hwf Hlink Hsame Htopo Hroot.
  pose proof (heap_wf_prev_older _ Hwf) as Hold.
  apply confined_for_each. intros v h' Hv [Hs1 _].
  assert (same_but_grad h h') as Hs by (unfold same_but_grad in *; congruence).
  assert (heap_wf h') as Hwf' by (by eapply heap_wf_same_but_grad).
  pose proof (reachable_older _ _ _ Hold (Htopo v Hv)) as Hle.
  split.
  - apply accumulates_bind.
    + apply accumulates_get. rewrite (same_but_grad_length _ _ Hs). lia.
    + intros n h'' E. unfold get in E.
      destruct (objects h' !! v) as [n'|] eqn:Hn; [|done].
      injection E as -> ->.
      apply (accumulates_call_backward _ v).
      * apply (heap_wf_node _ _ _ Hwf') in Hn.
        by apply andb_true_iff in Hn as [_ ?].
      * rewrite (same_but_grad_length _ _ Hs). lia.
  - apply confined_bind; [apply confined_get|].
    intros n h'' E. unfold get in E.
    destruct (objects h' !! v) as [n'|] eqn:Hn; [|done].
    injection E as -> ->.
    destruct (same_but_grad_lookup _ _ _ _ Hs Hn) as (n0 & Hn0 & ->).
    apply confined_call_backward. simpl.
    eapply Forall_impl; [by eapply heap_linked_node|].
    intros c Hc. simpl in Hc. split.
    + by eapply reach_step; [apply Htopo| |].
    + specialize (Hold _ _ _ Hn0 Hc). lia.
Qed.

(** X1.  A backward pass stays within the graph of its root: an object
    that is not reachable from the root is left exactly as it was, and
    the root ends with gradient 1, all its other attributes kept. *)
Theorem backward_confined (h : heap) (root : ref) (h' : heap) :
  heap_wf h → heap_linked h → root < length (objects h) →
  final_heap (backward root h) = Some h' →
  (∀ v, ¬ reachable h root v → objects h' !! v = objects h !! v)
  ∧ ∃ n, objects h !! root = Some n
         ∧ objects h' !! root = Some (with_grad 1 n).
Proof.
  intros Hwf Hlink Hroot Hfin.
  destruct (topo_order_sorted h root (heap_wf_prev_older _ Hwf) Hroot)
    as (topo & E & _ & Hreach & _).
  destruct (lookup_lt_is_Some_2 _ _ Hroot) as [n Hn].
  unfold backward in Hfin. rewrite E in Hfin.
  unfold mbind, M_bind, store_grad in Hfin. rewrite Hn in Hfin.
  set (h1 := mkHeap (<[root := with_grad 1 n]> (objects h))
                    (writes h ++ [Assign root 1])) in Hfin.
  assert (same_but_grad h h1) as Hsame.
  { unfold same_but_grad. simpl. symmetry. by apply same_but_grad_insert. }
  pose proof (backward_loop_confined h h1 root (reverse topo) Hwf Hlink Hsame)
    as Hloop.
  unfold confined in Hloop.
  assert (unchanged_outside (λ v, reachable h root v ∧ v ≠ root) h1 h') as Hun.
  { destruct (for_each _ (reverse topo) h1) as [[] h2|e h2|]; [| |done];
      simpl in Hfin; injection Hfin as <-; apply Hloop; try done;
      by intros v Hv%elem_of_reverse%Hreach. }
  split.
  - intros v Hv. rewrite (Hun v) by tauto. simpl.
    apply list_lookup_insert_ne. intros <-. apply Hv. constructor.
  - exists n. split; [done|]. rewrite (Hun root) by tauto. simpl.
    by apply list_lookup_insert_eq.
Qed.

(** On the heap of [y = x + x] beside an unrelated leaf. *)
Lemma backward_confined_witness :
  let h := mkHeap [mkValue 3 0 BNone [] OpLeaf;
                   mkValue 9 7 BNone [] OpLeaf;
                   mkValue 6 0 (BAdd 0 0 2) [0] OpAdd] [] in
  ∃ h', final_heap (backward 2 h) = Some h'
        ∧ objects h' !! 1 = Some (mkValue 9 7 BNone [] OpLeaf)
        ∧ grad <$> objects h' !! 2 = Some 1%Q.
Proof.
  intros h. eexists. split; [reflexivity|].
  destruct (backward_confined h 2 _ eq_refl eq_refl ltac:(simpl; lia) eq_refl)
    as [Hun (n & Hn & Hroot)].
  split.
  - rewrite Hun; [reflexivity|].
    destruct (topo_order_sorted h 2) as (topo & E & _ & Hreach & _);
      [by apply heap_wf_prev_older|simpl; lia|].
    intros Hr%Hreach. vm_compute in E. injection E as <-.
    apply elem_of_cons in Hr as [?|Hr]; [done|].
    by apply list_elem_of_singleton in Hr.
  - rewrite Hroot. reflexivity.
Defined.

(** ** The invariants of the heap *)

Lemma heap_linked_push h n :
  heap_linked h → node_linked n = true → heap_linked (push h n).
Proof.
  unfold heap_linked. simpl. intros Hl Hn.
  by rewrite forallb_app, Hl; simpl; rewrite Hn.
Qed.

Lemma heap_linked_same_but_grad h h' :
  same_but_grad h h' → heap_linked h → heap_linked h'.
Proof.
  unfold heap_linked, same_but_grad. intros E Hl.
  assert (∀ l, forallb node_linked (with_grad 0 <$> l) = forallb node_linked l)
    as Hf.
  { induction l as [|m l IH]; [done|].
    change (node_linked m && forallb node_linked (with_grad 0 <$> l)
            = node_linked m && forallb node_linked l).
    by rewrite IH. }
  by rewrite <- Hf, <- E, Hf.
Qed.

Lemma py_set_pair_linked iter_first a b :
  forallb (λ c, bool_decide (c ∈ py_set iter_first [a; b])) [a; b] = true.
Proof.
  destruct (py_set_pair iter_first a b) as (_ & Hin & _).
  simpl forallb. rewrite !bool_decide_eq_true_2; [done|apply Hin..]; auto.
Qed.

Lemma heap_linked_binop iter_first op a b h h' :
  op = __add__ ∨ op = __mul__ →
  heap_linked h → final_heap (op iter_first a (Val b) h) = Some h' →
  heap_linked h'.
Proof.
  intros Hop Hl Hfin.
  destruct (objects h !! a) as [na|] eqn:Ha;
    [destruct (objects h !! b) as [nb|] eqn:Hb|].
  - destruct Hop as [-> | ->];
      [rewrite (add_val _ _ _ _ _ _ Ha Hb) in Hfin
      |rewrite (mul_val _ _ _ _ _ _ Ha Hb) in Hfin];
      cbn [final_heap] in Hfin; injection Hfin as <-;
      (apply heap_linked_push; [done|]); apply py_set_pair_linked.
  - destruct Hop as [-> | ->];
      [rewrite add_val_stuck in Hfin by (by right)
      |rewrite mul_val_stuck in Hfin by (by right)]; done.
  - destruct Hop as [-> | ->];
      [rewrite add_val_stuck in Hfin by (by left)
      |rewrite mul_val_stuck in Hfin by (by left)]; done.
Qed.

Lemma node_constructor_linked iter_first m h h' :
  node_constructor iter_first m → heap_linked h →
  final_heap (m h) = Some h' → heap_linked h'.
Proof.
  intros Hm Hl Hfin. destruct Hm as [x|a [c|b]|a [c|b]|a [k|e]|a].
  - simpl in Hfin. injection Hfin as <-. by apply heap_linked_push.
  - rewrite add_num in Hfin.
    eapply (heap_linked_binop _ __add__); [by left| |done].
    by apply heap_linked_push.
  - eapply (heap_linked_binop _ __add__); [by left|done..].
  - rewrite mul_num in Hfin.
    eapply (heap_linked_binop _ __mul__); [by right| |done].
    by apply heap_linked_push.
  - eapply (heap_linked_binop _ __mul__); [by right|done..].
  - destruct (objects h !! a) as [na|] eqn:Ha.
    + rewrite (pow_num _ _ _ _ _ Ha) in Hfin.
      destruct (Qeq_bool (data na) 0 && (k <? 0)%Z); simpl in Hfin;
        injection Hfin as <-; [done|].
      apply heap_linked_push; [done|]. unfold node_linked. simpl.
      rewrite bool_decide_eq_true_2; [done|by left].
    + by rewrite pow_stuck in Hfin.
  - simpl in Hfin. by injection Hfin as <-.
  - destruct (objects h !! a) as [na|] eqn:Ha.
    + rewrite (relu_val _ _ _ _ Ha) in Hfin. simpl in Hfin.
      injection Hfin as <-.
      apply heap_linked_push; [done|]. unfold node_linked. simpl.
      rewrite bool_decide_eq_true_2; [done|by left].
    + destruct (relu_cases iter_first a h) as [E|(n & E & _)];
        rewrite E in Hfin; [done|].
      unfold relu, mbind, M_bind in E. by rewrite (get_data_None _ _ Ha) in E.
Qed.

(** X2.  The heap invariants are kept by every call of the engine: after
    a call that makes a node, after [backward] and after [zero_grad], no
    object has an operand created after it (so the graph has no cycle),
    and each closure writes only to operands of its node. *)
Theorem engine_keeps_invariants (iter_first : ref → ref → bool) (h h' : heap)
    (root : ref) (parameters : list ref) :
  heap_wf h → heap_linked h →
  (∃ m, node_constructor iter_first m ∧ final_heap (m h) = Some h')
  ∨ (root < length (objects h) ∧ final_heap (backward root h) = Some h')
  ∨ (Forall (λ p, p < length (objects h)) parameters
     ∧ final_heap (zero_grad parameters h) = Some h') →
  heap_wf h' ∧ heap_linked h' ∧ prev_older h'.
Proof.
  intros Hwf Hl Hcall.
  assert (heap_wf h' ∧ heap_linked h') as [Hwf' Hl'].
  { destruct Hcall as [(m & Hm & Hfin) | [[Hroot Hfin] | [Hps Hfin]]].
    - split; [by eapply node_constructor_wf|by eapply node_constructor_linked].
    - destruct (backward_not_stuck h root Hwf Hroot)
        as (h1 & ws & [E|E] & _ & _ & Hs); rewrite E in Hfin;
        simpl in Hfin; injection Hfin as <-;
        (split; [by eapply heap_wf_same_but_grad
                |by eapply heap_linked_same_but_grad]).
    - destruct (zero_grad_assigns parameters h Hps) as (h1 & E & _ & Hs).
      rewrite E in Hfin. simpl in Hfin. injection Hfin as <-.
      split; [by eapply heap_wf_same_but_grad
             |by eapply heap_linked_same_but_grad]. }
  split; [done|]. split; [done|]. by apply heap_wf_prev_older.
Qed.

Lemma engine_keeps_invariants_witness :
  let h := push empty_heap (mkValue 3 0 BNone [] OpLeaf) in
  ∃ h', final_heap (__mul__ (λ _ _, true) 0 (Num 2) h) = Some h'
        ∧ heap_wf h' ∧ heap_linked h' ∧ prev_older h'.
Proof.
  intros h. eexists. split; [reflexivity|].
  apply (engine_keeps_invariants (λ _ _, true) h _ 0 []); [reflexivity..|].
  left. eexists. split; [apply (con_mul _ 0 (Num 2))|reflexivity].
Defined.

(** ** Resetting gradients *)

(** X3.  [zero_grad] over existing objects returns; afterwards each of
    them has gradient 0, whatever it held, and nothing else in the heap
    has changed.  Over no parameters (the base [Module]) it does nothing. *)
Theorem zero_grad_zeroes (parameters : list ref) (h : heap) :
  Forall (λ p, p < length (objects h)) parameters →
  zero_grad [] h = Ok tt h
  ∧ ∃ h', zero_grad parameters h = Ok tt h'
          ∧ (∀ p, p ∈ parameters → grad_at h' p = Some 0%Q)
          ∧ (∀ v, v ∉ parameters → objects h' !! v = objects h !! v)
          ∧ same_but_grad h h'.
Proof.
  intros Hps. split; [done|]. unfold zero_grad.
  revert h Hps. induction parameters as [|p ps IH]; intros h Hps; simpl.
  - exists h. split; [done|]. split; [by intros p ?%elem_of_nil|]. done.
  - apply Forall_cons in Hps as [Hp Hps].
    destruct (lookup_lt_is_Some_2 _ _ Hp) as [n Hn].
    unfold mbind, M_bind, store_grad. rewrite Hn.
    set (h1 := mkHeap (<[p := with_grad 0 n]> (objects h))
                      (writes h ++ [Assign p 0])).
    assert (same_but_grad h h1) as Hsame.
    { unfold same_but_grad. simpl. symmetry. by apply same_but_grad_insert. }
    destruct (IH h1) as (h' & E & Hzero & Hrest & Hs).
    { by rewrite (same_but_grad_length _ _ Hsame). }
    exists h'. split; [done|]. split; [|split].
    + intros q Hq. destruct (decide (q ∈ ps)) as [|Hqps]; [by apply Hzero|].
      apply elem_of_cons in Hq as [->|?]; [|done].
      unfold grad_at. rewrite (Hrest p Hqps). simpl.
      by rewrite list_lookup_insert_eq.
    + intros v Hv. rewrite Hrest by (intros ?; apply Hv; by right).
      simpl. apply list_lookup_insert_ne. intros <-. apply Hv. by left.
    + unfold same_but_grad in *. congruence.
Qed.

Lemma zero_grad_zeroes_witness :
  let h := mkHeap [mkValue 3 4 BNone [] OpLeaf;
                   mkValue 6 1 (BAdd 0 0 1) [0] OpAdd] [] in
  ∃ h', zero_grad [0] h = Ok tt h'
        ∧ grad_at h' 0 = Some 0%Q
        ∧ objects h' !! 1 = objects h !! 1.
Proof.
  intros h.
  destruct (zero_grad_zeroes [0] h) as (_ & h' & E & Hz & Hr & _);
    [repeat constructor|].
  exists h'. split; [done|]. split; [apply Hz; by left|].
  apply Hr. by intros ?%list_elem_of_singleton.
Defined.

(** ** Division and the other derived operations *)

Open Scope Q_scope.

(** X4.  Dividing by a node of value zero, or by the number zero, raises
    [ZeroDivisionError] before anything is allocated: the heap at the
    raise is the heap of the call.  The reflected form [c / a] does the
    same when [a] has value zero. *)
Theorem division_by_zero_raises (iter_first : ref → ref → bool) (h : heap)
    (a b : ref) (nb : Value) (c z : Q) :
  objects h !! b = Some nb → data nb == 0 → z == 0 →
  __truediv__ iter_first a (Val b) h = Raise ZeroDivisionError h
  ∧ __truediv__ iter_first a (Num z) h = Raise ZeroDivisionError h
  ∧ __rtruediv__ iter_first b (Num c) h = Raise ZeroDivisionError h.
Proof.
  intros Hb Hzero%Qeq_bool_iff Hz%Qeq_bool_iff.
  unfold __truediv__, __rtruediv__, mbind, M_bind.
  rewrite (pow_num _ _ _ _ _ Hb), Hzero. unfold num_pow. by rewrite Hz.
Qed.

Lemma division_by_zero_raises_witness :
  let h := push (push empty_heap (mkValue 4 0 BNone [] OpLeaf))
                (mkValue 0 0 BNone [] OpLeaf) in
  __truediv__ (λ _ _, true) 0%nat (Val 1%nat) h = Raise ZeroDivisionError h.
Proof.
  intros h.
  by destruct (division_by_zero_raises (λ _ _, true) h 0%nat 1%nat
                 (mkValue 0 0 BNone [] OpLeaf) 1 0 eq_refl eq_refl eq_refl)
    as [H _].
Defined.



(** ** The local derivative rules, for arbitrary values *)

(** Evaluate a call on a heap of known shape, leaving the arithmetic of
    the values alone. *)
Ltac eval_call :=
  cbv -[Qplus Qmult Qopp Qpower Qinv Qcompare Qeq_bool Qeq Qle Qlt
        Z.ltb Z.sub Z.le Z.lt inject_Z topo_order].

(** Evaluate the next [backward]: sort, then run the closures. *)
Ltac eval_backward :=
  unfold backward;
  match goal with
  | |- context [topo_order ?h ?r] =>
      let t := eval vm_compute in (topo_order h r) in
      replace (topo_order h r) with t by (vm_compute; reflexivity)
  end; eval_call.

(** X6.  The product rule.  For leaves [x] and [y] of any values and
    [z = x * y], [backward(z)] leaves the value of [y] as gradient of [x]
    and the value of [x] as gradient of [y]; for [z = x * x] the gradient
    of [x] is twice its value, both uses contributing. *)
Theorem product_rule (iter_first : ref → ref → bool) (x0 y0 : Q) :
  (∃ x y z h gx gy,
      scenario_product iter_first x0 y0 empty_heap = Ok (x, y, z) h
      ∧ data_at h z = Some (x0 * y0)
      ∧ grad_at h x = Some gx ∧ gx == y0
      ∧ grad_at h y = Some gy ∧ gy == x0)
  ∧ (∃ x z h gx,
        scenario_square iter_first x0 empty_heap = Ok (x, z) h
        ∧ data_at h z = Some (x0 * x0)
        ∧ grad_at h x = Some gx ∧ gx == 2 * x0).
Proof.
  split.
  - exists 0%nat, 1%nat, 2%nat. unfold scenario_product, product_graph.
    destruct (iter_first 0%nat 1%nat) eqn:E; eval_call; rewrite ?E;
      eval_call; eval_backward;
      do 3 eexists; (split; [reflexivity|]); (split; [reflexivity|]);
      (split; [reflexivity|]); (split; [ring|]);
      (split; [reflexivity|ring]).
  - exists 0%nat, 1%nat. unfold scenario_square, square_graph.
    eval_call. eval_backward.
    do 2 eexists. split; [reflexivity|]. split; [reflexivity|].
    split; [reflexivity|ring].
Qed.

(** X7.  Gradients accumulate over backward passes.  For [z = x * x], a
    second [backward(z)] leaves four times the value of [x] in its
    gradient, to which both passes added; after [zero_grad] on [x]
    between the passes it is twice the value again.  The gradient of the
    root is 1 either way. *)
Theorem backward_accumulates_until_zeroed (iter_first : ref → ref → bool)
    (x0 : Q) :
  (∃ x z h gx,
      scenario_backward_twice iter_first x0 empty_heap = Ok (x, z) h
      ∧ grad_at h x = Some gx ∧ gx == 4 * x0 ∧ grad_at h z = Some 1)
  ∧ (∃ x z h gx,
        scenario_backward_zero_backward iter_first x0 empty_heap = Ok (x, z) h
        ∧ grad_at h x = Some gx ∧ gx == 2 * x0 ∧ grad_at h z = Some 1).
Proof.
  split.
  - exists 0%nat, 1%nat. unfold scenario_backward_twice, square_graph.
    eval_call. eval_backward. eval_backward.
    do 2 eexists. split; [reflexivity|]. split; [reflexivity|].
    split; [ring|reflexivity].
  - exists 0%nat, 1%nat. unfold scenario_backward_zero_backward, square_graph.
    eval_call. eval_backward. eval_backward.
    do 2 eexists. split; [reflexivity|]. split; [reflexivity|].
    split; [ring|reflexivity].
Qed.

(** Evaluate, using the known answers [E] of the tests met on the way. *)
Ltac eval_with E :=
  repeat (progress (eval_call; rewrite ?E)).

(** X8.  The power at zero, for an integer exponent.  For a leaf [x]
    of value zero and [y = x ** n]: when [n] is negative the power
    itself raises [ZeroDivisionError] and no node is made, the leaf
    being all the heap holds; when [n] is zero the node is made, with
    value [x0 ** 0], but [backward(y)] raises [ZeroDivisionError] from
    [x0 ** -1], after the gradient of [y] was set to 1 and with the
    gradient of [x] still 0. *)
Theorem power_zero_edge (iter_first : ref → ref → bool) (x0 : Q) (n : Z) :
  (x0 == 0 → (n < 0)%Z →
   scenario_pow iter_first x0 n empty_heap
   = Raise ZeroDivisionError (push empty_heap (mkValue x0 0 BNone [] OpLeaf)))
  ∧ (x0 == 0 → n = 0%Z →
     ∃ h, scenario_pow iter_first x0 n empty_heap = Raise ZeroDivisionError h
          ∧ data_at h 1%nat = Some (x0 ^ 0)
          ∧ grad_at h 1%nat = Some 1 ∧ grad_at h 0%nat = Some 0).
Proof.
  unfold scenario_pow, pow_graph. split.
  - intros E0%Qeq_bool_iff E1%Z.ltb_lt. eval_with E0. by rewrite E1.
  - intros E0%Qeq_bool_iff ->. eval_with E0.
    change (0 <? 0)%Z with false. cbv iota. eval_backward.
    rewrite E0. change (0 - 1 <? 0)%Z with true. cbv iota.
    by eexists.
Qed.

Lemma power_zero_edge_witness :
  ∃ h, scenario_pow (λ _ _, true) 0 0 empty_heap = Raise ZeroDivisionError h
       ∧ grad_at h 1%nat = Some 1.
Proof.
  destruct (power_zero_edge (λ _ _, true) 0 0) as (_ & H).
  destruct (H ltac:(reflexivity) eq_refl) as (h & E & _ & Hg & _).
  by exists h.
Defined.

(** X9.  The rule of [relu] at every value.  For a leaf [x] of value
    [x0] and [y = relu(x)], [backward(y)] returns; when [x0] is at most
    zero, [y] has value zero and [x] gets gradient 0; when [x0] is
    positive, [y] has value [x0] and [x] gets gradient 1. *)
Theorem relu_rule (iter_first : ref → ref → bool) (x0 : Q) :
  ∃ h d g, scenario_relu iter_first x0 empty_heap = Ok (0%nat, 1%nat) h
           ∧ data_at h 1%nat = Some d ∧ grad_at h 0%nat = Some g
           ∧ (x0 <= 0 → d == 0 ∧ g == 0)
           ∧ (0 < x0 → d == x0 ∧ g == 1).
Proof.
  unfold scenario_relu.
  destruct (x0 ?= 0) eqn:E.
  - eval_with E. eval_backward. rewrite E. cbv iota.
    do 3 eexists. split; [reflexivity|]. split; [reflexivity|].
    split; [reflexivity|]. apply Qeq_alt in E. split.
    + intros _. split; [done|ring].
    + intros Hpos. rewrite E in Hpos. by apply Qlt_irrefl in Hpos.
  - eval_with E. eval_backward. change (0 ?= 0) with Eq. cbv iota.
    do 3 eexists. split; [reflexivity|]. split; [reflexivity|].
    split; [reflexivity|]. apply Qlt_alt in E. split.
    + intros _. split; [reflexivity|ring].
    + intros Hpos. exfalso. exact (Qlt_irrefl _ (Qlt_trans _ _ _ Hpos E)).
  - eval_with E. eval_backward. rewrite E. cbv iota.
    do 3 eexists. split; [reflexivity|]. split; [reflexivity|].
    split; [reflexivity|]. apply Qgt_alt in E. split.
    + intros Hle. exfalso. by apply Qle_not_lt in Hle.
    + intros _. split; [reflexivity|ring].
Qed.

Lemma relu_rule_witness :
  ∃ h d g, scenario_relu (λ _ _, true) 0 empty_heap = Ok (0%nat, 1%nat) h
           ∧ data_at h 1%nat = Some d ∧ grad_at h 0%nat = Some g
           ∧ d == 0 ∧ g == 0.
Proof.
  destruct (relu_rule (λ _ _, true) 0) as (h & d & g & E & Hd & Hg & Hle & _).
  exists h, d, g. repeat split; try done; by apply Hle.
Defined.


(** ** The accumulation law *)








#[local] Instance use_proper v o : Proper (Qeq ==> Qeq) (use v o).
Proof. intros x y E. unfold use. by destruct (decide _). Qed.


















(** * micrograd/nn.py *)

Open Scope nat_scope.

Lemma extends_refl h : extends h h.
Proof. split; [done|]. exists []. by rewrite app_nil_r. Qed.

Lemma extends_trans h1 h2 h3 : extends h1 h2 → extends h2 h3 → extends h1 h3.
Proof.
  intros [W1 [n1 E1]] [W2 [n2 E2]]. split; [congruence|].
  exists (n1 ++ n2). by rewrite E2, E1, app_assoc.
Qed.

Lemma extends_push h n : extends h (push h n).
Proof. split; [done|]. by exists [n]. Qed.

Lemma extends_lookup h h' v n :
  extends h h' → objects h !! v = Some n → objects h' !! v = Some n.
Proof. intros [_ [new ->]] Hv. by apply lookup_app_l_Some. Qed.

Lemma extends_length h h' : extends h h' → length (objects h) ≤ length (objects h').
Proof. intros [_ [new ->]]. rewrite length_app. lia. Qed.

Section NeuronInit.

Context (iter_first : ref → ref → bool) (uniform : nat → Q).

Lemma random_leaves_eq nin : ∀ k h,
  nn.random_leaves iter_first uniform nin k h
  = Ok (seq (length (objects h)) nin)
       (mkHeap (objects h ++ (nn.random_leaf uniform <$> seq k nin))
               (writes h)).
Proof.
  induction nin as [|nin IH]; intros k h.
  - simpl. unfold mret, M_ret. rewrite app_nil_r. by destruct h.
  - cbn [nn.random_leaves]. unfold mbind, M_bind, leaf.
    rewrite init_eq, IH. unfold mret, M_ret, push. simpl.
    rewrite length_app, <- app_assoc. simpl. by rewrite Nat.add_1_r.
Qed.

Lemma neuron_init_eq nin nonlin k h :
  nn.Neuron_init iter_first uniform nin nonlin k h
  = Ok (nn.mkNeuron (seq (length (objects h)) nin) (length (objects h) + nin)
                    nonlin, k + nin)
       (mkHeap (objects h ++ (nn.random_leaf uniform <$> seq k nin)
                          ++ [mkValue 0 0 BNone [] OpLeaf]) (writes h)).
Proof.
  unfold nn.Neuron_init, mbind, M_bind, leaf.
  rewrite random_leaves_eq, init_eq.
  unfold mret, M_ret, push. cbn [objects writes].
  by rewrite length_app, length_fmap, length_seq, <- app_assoc.
Qed.

End NeuronInit.

(** X10.  A new neuron owns [nin + 1] parameters, its weights then its
    bias: fresh, pairwise distinct leaves appended to the heap in that
    order, of gradient 0, the weights holding the next [nin] numbers of
    the generator and the bias 0.  No existing object is touched. *)
Theorem neuron_init_parameters (iter_first : ref → ref → bool)
    (uniform : nat → Q) (nin : nat) (nonlin : bool) (k : nat) (h : heap) :
  ∃ n h',
    nn.Neuron_init iter_first uniform nin nonlin k h = Ok (n, k + nin) h'
    ∧ nn.Neuron_parameters n = seq (length (objects h)) (S nin)
    ∧ NoDup (nn.Neuron_parameters n)
    ∧ length (nn.w n) = nin ∧ nn.nonlin n = nonlin
    ∧ extends h h'
    ∧ (data <$> drop (length (objects h)) (objects h'))
      = (uniform <$> seq k nin) ++ [0%Q]
    ∧ Forall (λ p, ∃ v, objects h' !! p = Some v
                        ∧ grad v = 0%Q ∧ _prev v = [] ∧ _backward v = BNone)
             (nn.Neuron_parameters n).
Proof.
  do 2 eexists. split; [apply neuron_init_eq|].
  unfold nn.Neuron_parameters. simpl.
  assert (seq (length (objects h)) nin ++ [length (objects h) + nin]
          = seq (length (objects h)) (S nin)) as Hseq by (by rewrite seq_S).
  rewrite Hseq. split; [done|]. split; [apply NoDup_seq|].
  split; [by rewrite length_seq|]. split; [done|].
  split; [split; [done|by eexists]|]. split.
  - rewrite drop_app_length, fmap_app, <- list_fmap_compose. done.
  - apply Forall_forall. intros p [Hlo Hhi]%elem_of_seq.
    rewrite lookup_app_r by lia.
    destruct (decide (p - length (objects h) < nin)) as [Hlt|Hge].
    + rewrite lookup_app_l by (by rewrite length_fmap, length_seq).
      rewrite list_lookup_fmap, lookup_seq_lt by done. simpl. by eexists.
    + rewrite lookup_app_r by (rewrite length_fmap, length_seq; lia).
      rewrite length_fmap, length_seq.
      replace (p - length (objects h) - nin) with 0 by lia. simpl. by eexists.
Qed.

Section LayerInit.

Context (iter_first : ref → ref → bool) (uniform : nat → Q).

Lemma make_neurons_spec nin nonlin nout : ∀ k h,
  ∃ ns h',
    nn.make_neurons iter_first uniform nin nonlin nout k h
    = Ok (ns, k + nout * nin) h'
    ∧ length ns = nout
    ∧ (n ← ns; nn.Neuron_parameters n)
      = seq (length (objects h)) (nout * S nin)
    ∧ Forall (λ n, length (nn.w n) = nin ∧ nn.nonlin n = nonlin) ns
    ∧ extends h h'
    ∧ length (objects h') = length (objects h) + nout * S nin.
Proof.
  induction nout as [|nout IH]; intros k h.
  - exists [], h. simpl. rewrite !Nat.add_0_r.
    split; [done|]. split; [done|]. split; [done|].
    split; [constructor|]. split; [apply extends_refl|done].
  - cbn [nn.make_neurons]. unfold mbind, M_bind.
    rewrite neuron_init_eq.
    set (h1 := mkHeap _ (writes h)).
    assert (length (objects h1) = length (objects h) + S nin) as Hlen.
    { subst h1. simpl. rewrite !length_app, length_fmap, length_seq.
      simpl. lia. }
    destruct (IH (k + nin) h1) as (ns & h' & E & Hns & Hps & Hall & Hext & Hlen').
    rewrite E. unfold mret, M_ret.
    replace (k + nin + nout * nin) with (k + S nout * nin) by lia.
    do 2 eexists. split; [reflexivity|]. split; [simpl; by rewrite Hns|].
    split; [|split; [|split]].
    + rewrite bind_cons, Hps, Hlen. unfold nn.Neuron_parameters. simpl nn.w.
      simpl nn.b.
      replace (seq (length (objects h)) nin ++ [length (objects h) + nin])
        with (seq (length (objects h)) (S nin)) by (by rewrite seq_S).
      rewrite <- seq_app. f_equal; lia.
    + constructor; [|done]. simpl. by rewrite length_seq.
    + eapply extends_trans; [|done]. subst h1. split; [done|by eexists].
    + rewrite Hlen', Hlen. lia.
Qed.

Lemma make_layers_spec sz count idx : ∀ k h,
  ∃ ls k' h',
    nn.make_layers iter_first uniform sz count idx k h = Ok (ls, k') h'
    ∧ Forall2 (λ i l,
         length (nn.neurons l) = sz !!! S i
         ∧ Forall (λ n, length (nn.w n) = sz !!! i
                        ∧ nn.nonlin n
                          = negb (Z.of_nat i =? Z.of_nat count - 1)%Z)
                  (nn.neurons l)) idx ls
    ∧ (ls ≫= nn.Layer_parameters)
      = seq (length (objects h))
            (sum_list ((λ i, sz !!! S i * S (sz !!! i)) <$> idx))
    ∧ extends h h'
    ∧ length (objects h')
      = length (objects h)
        + sum_list ((λ i, sz !!! S i * S (sz !!! i)) <$> idx).
Proof.
  induction idx as [|i idx IH]; intros k h.
  - exists [], k, h. simpl. rewrite !Nat.add_0_r.
    split; [done|]. split; [constructor|]. split; [done|].
    split; [apply extends_refl|done].
  - cbn [nn.make_layers]. unfold nn.Layer_init, mbind, M_bind.
    destruct (make_neurons_spec (sz !!! i)
                (negb (Z.of_nat i =? Z.of_nat count - 1)%Z) (sz !!! S i) k h)
      as (ns & h1 & E1 & Hns & Hps & Hall & Hext1 & Hlen1).
    rewrite E1. unfold mret, M_ret.
    destruct (IH (k + sz !!! S i * sz !!! i) h1)
      as (ls & k' & h' & E & Hls & Hpl & Hext & Hlen).
    rewrite E.
    do 3 eexists. split; [reflexivity|]. split; [by constructor|].
    split; [|split].
    + rewrite bind_cons, Hpl, Hlen1. unfold nn.Layer_parameters at 1.
      simpl nn.neurons. rewrite Hps. simpl sum_list.
      by rewrite <- seq_app.
    + by eapply extends_trans.
    + rewrite Hlen, Hlen1. simpl sum_list. symmetry. apply Nat.add_assoc.
Qed.

End LayerInit.

(** The network [MLP(nin, nouts)] builds. *)
Lemma mlp_init_spec (iter_first : ref → ref → bool) (uniform : nat → Q)
    (nin : nat) (nouts : list nat) (k : nat) (h : heap) :
  let sz := nin :: nouts in
  let total := sum_list ((λ i, sz !!! S i * S (sz !!! i))
                           <$> seq 0 (length nouts)) in
  ∃ m k' h',
    nn.MLP_init iter_first uniform nin nouts k h = Ok (m, k') h'
    ∧ length (nn.layers m) = length nouts
    ∧ (∀ i l, nn.layers m !! i = Some l →
         length (nn.neurons l) = nouts !!! i
         ∧ Forall (λ n, length (nn.w n) = sz !!! i
                        ∧ nn.nonlin n = bool_decide (S i ≠ length nouts))
                  (nn.neurons l))
    ∧ nn.MLP_parameters m = seq (length (objects h)) total
    ∧ extends h h'
    ∧ length (objects h') = length (objects h) + total.
Proof.
  intros sz total. unfold nn.MLP_init, mbind, M_bind.
  destruct (make_layers_spec iter_first uniform sz (length nouts)
              (seq 0 (length nouts)) k h)
    as (ls & k' & h' & E & Hls & Hps & Hext & Hlen).
  fold sz. rewrite E. unfold mret, M_ret.
  exists (nn.mkMLP ls), k', h'. split; [done|].
  split; [simpl; by rewrite <- (Forall2_length _ _ _ Hls), length_seq|].
  split; [|done].
  intros i l Hl. simpl in Hl.
  destruct (Forall2_lookup_r _ _ _ _ _ Hls Hl) as (j & Hj & Hn & Hall).
  apply lookup_seq in Hj as [-> Hlt]. simpl in Hn, Hall. split; [done|].
  eapply Forall_impl; [done|]. intros n [Hw ->]. split; [done|].
  destruct (Z.eqb_spec (Z.of_nat i) (Z.of_nat (length nouts) - 1));
    simpl; symmetry.
  - apply bool_decide_eq_false. lia.
  - apply bool_decide_eq_true. lia.
Qed.

(** X11.  The shape of a new network.  [MLP(nin, nouts)] has one layer
    per entry of [nouts]; layer [i] has [nouts[i]] neurons, each with as
    many weights as layer [i] has inputs ([nin] for the first, the size
    of the layer before otherwise), non-linear exactly when the layer is
    not the last.  Its parameters are the objects the call appended to
    the heap, in order, [nouts[i] * (inputs of i + 1)] per layer. *)
Theorem mlp_init_shape (iter_first : ref → ref → bool) (uniform : nat → Q)
    (nin : nat) (nouts : list nat) (k : nat) (h : heap) :
  let sz := nin :: nouts in
  let total := sum_list ((λ i, sz !!! S i * S (sz !!! i))
                           <$> seq 0 (length nouts)) in
  ∃ m k' h',
    nn.MLP_init iter_first uniform nin nouts k h = Ok (m, k') h'
    ∧ length (nn.layers m) = length nouts
    ∧ (∀ i l, nn.layers m !! i = Some l →
         length (nn.neurons l) = nouts !!! i
         ∧ Forall (λ n, length (nn.w n) = sz !!! i
                        ∧ nn.nonlin n = bool_decide (S i ≠ length nouts))
                  (nn.neurons l))
    ∧ nn.MLP_parameters m = seq (length (objects h)) total
    ∧ extends h h'
    ∧ length (objects h') = length (objects h) + total.
Proof. apply mlp_init_spec. Qed.

(** ** Calling a neuron *)

Lemma data_at_Some h v q :
  data_at h v = Some q ↔ ∃ n, objects h !! v = Some n ∧ data n = q.
Proof.
  unfold data_at. rewrite fmap_Some.
  by split; intros (n & ? & ?); exists n.
Qed.

Lemma extends_data_at h h' v q :
  extends h h' → data_at h v = Some q → data_at h' v = Some q.
Proof.
  intros Hext (n & Hn & <-)%data_at_Some. apply data_at_Some.
  exists n. split; [by eapply extends_lookup|done].
Qed.

Lemma extends_operand_value h h' o q :
  extends h h' → nn.operand_value h o = Some q → nn.operand_value h' o = Some q.
Proof. destruct o; [done|]. apply extends_data_at. Qed.

Lemma Forall2_zip_pairs {A B C D : Type} (P : A → B → Prop) (Q : C → D → Prop)
    l1 k1 : ∀ l2 k2,
  Forall2 P l1 k1 → Forall2 Q l2 k2 →
  Forall2 (λ a b, P a.1 b.1 ∧ Q a.2 b.2) (zip l1 l2) (zip k1 k2).
Proof.
  intros l2 k2 H1. revert l2 k2.
  induction H1 as [|a b l1 k1 Hab H1 IH]; intros l2 k2 H2; [constructor|].
  destruct H2 as [|c d l2 k2 Hcd H2]; [constructor|].
  simpl. constructor; [done|]. by apply IH.
Qed.

Section NeuronCall.

Context (iter_first : ref → ref → bool).

(** The sum of products, from an accumulator of value [av]. *)
Lemma sum_products_value pairs : ∀ values acc av h,
  Forall2 (λ p q, data_at h p.1 = Some q.1
                  ∧ nn.operand_value h p.2 = Some q.2) pairs values →
  data_at h acc = Some av →
  ∃ out h', nn.sum_products iter_first pairs acc h = Ok out h'
            ∧ data_at h' out = Some (nn.dot av values)
            ∧ extends h h'.
Proof.
  induction pairs as [|[wi xi] pairs IH]; intros values acc av h Hall Hacc.
  - apply Forall2_nil_inv_l in Hall as ->.
    exists acc, h. split; [done|]. split; [done|apply extends_refl].
  - apply Forall2_cons_inv_l in Hall as ([wq xq] & values' & [Hw Hx] & Hall & ->).
    simpl in Hw, Hx.
    apply data_at_Some in Hw as (nw & Hnw & <-).
    apply data_at_Some in Hacc as (na & Hna & <-).
    cbn [nn.sum_products nn.dot]. unfold mbind, M_bind.
    destruct xi as [c|v].
    + simpl in Hx. injection Hx as ->.
      repeat exec.
      match goal with
      | |- context [nn.sum_products _ _ ?a ?g] =>
          destruct (IH values' a (data na + data nw * xq)%Q g)
            as (out & h' & E & Hd & Hext)
      end.
      * eapply Forall2_impl; [done|]. intros p q [H1 H2]. split.
        -- eapply extends_data_at; [|done].
           eapply extends_trans; [|apply extends_push].
           eapply extends_trans; apply extends_push.
        -- eapply extends_operand_value; [|done].
           eapply extends_trans; [|apply extends_push].
           eapply extends_trans; apply extends_push.
      * apply data_at_push_new.
      * exists out, h'. split; [done|]. split; [done|].
        eapply extends_trans; [|done].
        eapply extends_trans; [|apply extends_push].
        eapply extends_trans; apply extends_push.
    + simpl in Hx. apply data_at_Some in Hx as (nx & Hnx & <-).
      repeat exec.
      match goal with
      | |- context [nn.sum_products _ _ ?a ?g] =>
          destruct (IH values' a (data na + data nw * data nx)%Q g)
            as (out & h' & E & Hd & Hext)
      end.
      * eapply Forall2_impl; [done|]. intros p q [H1 H2]. split.
        -- eapply extends_data_at; [|done].
           eapply extends_trans; apply extends_push.
        -- eapply extends_operand_value; [|done].
           eapply extends_trans; apply extends_push.
      * apply data_at_push_new.
      * exists out, h'. split; [done|]. split; [done|].
        eapply extends_trans; [|done].
        eapply extends_trans; apply extends_push.
Qed.

End NeuronCall.

Section Fresh.

Context (iter_first : ref → ref → bool).

(** A product, a sum and a [relu] that return, return an object that
    was not in the heap. *)
Lemma binop_fresh op a o h out h' :
  op = __add__ ∨ op = __mul__ →
  op iter_first a o h = Ok out h' →
  length (objects h) ≤ out < length (objects h').
Proof.
  intros Hop E.
  assert (∀ b g, op iter_first a (Val b) g = Ok out h' →
                 out = length (objects g)
                 ∧ length (objects h') = S (length (objects g))) as Hval.
  { intros b g Eg.
    destruct Hop as [-> | ->];
      [destruct (add_cases iter_first a b g) as [Es|(n & Es & _)]
      |destruct (mul_cases iter_first a b g) as [Es|(n & Es & _)]];
      rewrite Es in Eg; try done; injection Eg as <- <-;
      by rewrite length_push. }
  destruct o as [c|b].
  - assert (op iter_first a (Num c) h
            = op iter_first a (Val (length (objects h)))
                 (push h (mkValue c 0 BNone [] OpLeaf))) as Enum
      by (by destruct Hop as [-> | ->]).
    rewrite Enum in E. apply Hval in E as [-> ->].
    rewrite length_push. lia.
  - apply Hval in E as [-> ->]. lia.
Qed.

Lemma sum_products_fresh pairs : ∀ acc h out h',
  nn.sum_products iter_first pairs acc h = Ok out h' →
  (pairs = [] ∧ out = acc ∧ h' = h)
  ∨ (pairs ≠ [] ∧ length (objects h) ≤ out < length (objects h')).
Proof.
  induction pairs as [|[wi xi] pairs IH]; intros acc h out h' E.
  - left. simpl in E. by injection E as <- <-.
  - right. split; [done|].
    cbn [nn.sum_products] in E. unfold mbind, M_bind in E.
    destruct (__mul__ iter_first wi xi h) as [p h1|?|] eqn:E1; [|done..].
    destruct (__add__ iter_first acc (Val p) h1) as [acc' h2|?|] eqn:E2;
      [|done..].
    apply (binop_fresh __mul__) in E1; [|by right].
    apply (binop_fresh __add__) in E2; [|by left].
    apply IH in E as [(_ & -> & ->)|[_ E]]; lia.
Qed.

End Fresh.

(** A call of a neuron on values that exist. *)
Lemma neuron_call_runs (iter_first : ref → ref → bool) (n : nn.Neuron)
    (xs : list operand) (h : heap) (wv xv : list Q) (bv : Q) :
  Forall2 (λ r q, data_at h r = Some q) (nn.w n) wv →
  Forall2 (λ o q, nn.operand_value h o = Some q) xs xv →
  data_at h (nn.b n) = Some bv →
  ∃ out h' d,
    nn.Neuron_call iter_first n (nn.Many xs) h = Ok (inr out) h'
    ∧ data_at h' out = Some d
    ∧ (nn.nonlin n = false → d = nn.dot bv (zip wv xv))
    ∧ (nn.nonlin n = true →
       ((nn.dot bv (zip wv xv) < 0)%Q → d = 0%Q)
       ∧ ((0 <= nn.dot bv (zip wv xv))%Q → d = nn.dot bv (zip wv xv)))
    ∧ extends h h'
    ∧ (nn.nonlin n = false → zip (nn.w n) xs = [] →
       out = nn.b n ∧ h' = h)
    ∧ (nn.nonlin n = true ∨ zip (nn.w n) xs ≠ [] →
       length (objects h) ≤ out < length (objects h')).
Proof.
  intros Hw Hx Hb.
  destruct (sum_products_value iter_first (zip (nn.w n) xs) (zip wv xv)
              (nn.b n) bv h) as (act & h1 & E & Hd & Hext);
    [by apply (Forall2_zip_pairs (λ r q, data_at h r = Some q)
                (λ o q, nn.operand_value h o = Some q))|done|].
  unfold nn.Neuron_call, mbind, M_bind. rewrite E.
  destruct (nn.nonlin n).
  - apply data_at_Some in Hd as (na & Hna & Hda).
    rewrite (relu_val _ _ _ _ Hna). unfold mret, M_ret.
    do 3 eexists. split; [reflexivity|].
    split; [apply data_at_push_new|]. cbn [data]. rewrite Hda.
    split; [done|]. split.
    + intros _. unfold Qltb.
      destruct (nn.dot bv (zip wv xv) ?= 0)%Q eqn:Ec.
      * split; [|done]. intros Hneg.
        pose proof (proj1 (Qlt_alt _ _) Hneg) as Hc.
        rewrite Ec in Hc. discriminate Hc.
      * split; [done|]. intros Hpos. apply Qlt_alt in Ec.
        by apply Qle_not_lt in Hpos.
      * split; [|done]. intros Hneg.
        pose proof (proj1 (Qlt_alt _ _) Hneg) as Hc.
        rewrite Ec in Hc. discriminate Hc.
    + split; [eapply extends_trans; [done|apply extends_push]|].
      split; [done|]. intros _. rewrite length_push.
      apply extends_length in Hext. lia.
  - unfold mret, M_ret. exists act, h1, (nn.dot bv (zip wv xv)).
    split; [done|]. split; [done|]. split; [done|]. split; [done|].
    split; [done|].
    apply sum_products_fresh in E as [(Hnil & -> & ->)|[Hne E]].
    + split; [done|]. by intros [?|?].
    + split; [done|]. done.
Qed.

(** X12.  What a neuron computes.  Called on a list of numbers and
    nodes, a neuron pairs its weights with the inputs as [zip] does, up
    to the shorter of the two, and returns a node whose value is the
    bias plus the products, summed left to right; a non-linear neuron
    clamps a negative sum to zero.  The call only appends to the heap.
    The node returned is one the call made, except that a linear neuron
    with no pair to sum returns its bias node itself and leaves the heap
    as it was. *)
Theorem neuron_call_value (iter_first : ref → ref → bool) (n : nn.Neuron)
    (xs : list operand) (h : heap) (wv xv : list Q) (bv : Q) :
  Forall2 (λ r q, data_at h r = Some q) (nn.w n) wv →
  Forall2 (λ o q, nn.operand_value h o = Some q) xs xv →
  data_at h (nn.b n) = Some bv →
  ∃ out h' d,
    nn.Neuron_call iter_first n (nn.Many xs) h = Ok (inr out) h'
    ∧ data_at h' out = Some d
    ∧ (nn.nonlin n = false → d = nn.dot bv (zip wv xv))
    ∧ (nn.nonlin n = true →
       ((nn.dot bv (zip wv xv) < 0)%Q → d = 0%Q)
       ∧ ((0 <= nn.dot bv (zip wv xv))%Q → d = nn.dot bv (zip wv xv)))
    ∧ extends h h'
    ∧ (nn.nonlin n = false → zip (nn.w n) xs = [] →
       out = nn.b n ∧ h' = h)
    ∧ (nn.nonlin n = true ∨ zip (nn.w n) xs ≠ [] →
       length (objects h) ≤ out < length (objects h')).
Proof. apply neuron_call_runs. Qed.

Lemma neuron_call_value_witness :
  let h := mkHeap [mkValue 2 0 BNone [] OpLeaf; mkValue 3 0 BNone [] OpLeaf;
                   mkValue 1 0 BNone [] OpLeaf] [] in
  ∃ out h' d,
    nn.Neuron_call (λ _ _, true) (nn.mkNeuron [0; 1] 2 false)
                   (nn.Many [Num 5; Num 7]) h = Ok (inr out) h'
    ∧ data_at h' out = Some d
    ∧ d = nn.dot 1 [(2, 5); (3, 7)]%Q
    ∧ (3 ≤ out < length (objects h'))%nat.
Proof.
  intros h.
  destruct (neuron_call_value (λ _ _, true) (nn.mkNeuron [0; 1] 2 false)
              [Num 5; Num 7] h [2; 3]%Q [5; 7]%Q 1%Q)
    as (out & h' & d & E & Hd & Hlin & _ & _ & _ & Hnew).
  - by repeat constructor.
  - by repeat constructor.
  - reflexivity.
  - exists out, h', d. split; [done|]. split; [done|].
    split; [by apply Hlin|]. apply Hnew. by right.
Defined.

(** X13.  A neuron checks no lengths.  Inputs beyond the number of
    weights are not read, weights beyond the number of inputs are not
    used, and on no input at all a linear neuron returns its bias node
    itself, allocating nothing. *)
Theorem neuron_call_truncates (iter_first : ref → ref → bool) (n : nn.Neuron)
    (xs : list operand) (h : heap) :
  nn.Neuron_call iter_first n (nn.Many xs) h
  = nn.Neuron_call iter_first n (nn.Many (take (length (nn.w n)) xs)) h
  ∧ nn.Neuron_call iter_first n (nn.Many xs) h
    = nn.Neuron_call iter_first
        (nn.mkNeuron (take (length xs) (nn.w n)) (nn.b n) (nn.nonlin n))
        (nn.Many xs) h
  ∧ (nn.nonlin n = false →
     nn.Neuron_call iter_first n (nn.Many []) h = Ok (inr (nn.b n)) h).
Proof.
  unfold nn.Neuron_call. simpl nn.w. simpl nn.b. simpl nn.nonlin.
  split; [|split].
  - by rewrite zip_with_take_r.
  - by rewrite zip_with_take_l.
  - intros ->. by rewrite zip_with_nil_r.
Qed.

Lemma neuron_call_truncates_witness :
  let h := mkHeap [mkValue 2 0 BNone [] OpLeaf; mkValue 1 0 BNone [] OpLeaf] [] in
  nn.Neuron_call (λ _ _, true) (nn.mkNeuron [0] 1 false) (nn.Many []) h
  = Ok (inr 1) h.
Proof.
  intros h.
  destruct (neuron_call_truncates (λ _ _, true) (nn.mkNeuron [0] 1 false) [] h)
    as (_ & _ & H).
  by apply H.
Defined.

(** ** Calling a layer and a network *)

Lemma Forall_is_Some {A B : Type} (f : A → option B) l :
  Forall (λ x, is_Some (f x)) l → ∃ k, Forall2 (λ x y, f x = Some y) l k.
Proof.
  induction 1 as [|x l [y Hy] _ [k IH]]; [by exists []|].
  exists (y :: k). by constructor.
Qed.

Lemma extends_defined h h' v : extends h h' → nn.defined h v → nn.defined h' v.
Proof. intros Hext [n Hn]. exists n. by eapply extends_lookup. Qed.

Lemma extends_Neuron_ok h h' n :
  extends h h' → nn.Neuron_ok h n → nn.Neuron_ok h' n.
Proof.
  intros Hext [Hw Hb]. split; [|by eapply extends_defined].
  eapply Forall_impl; [done|]. intros v. by apply extends_defined.
Qed.

Lemma extends_Layer_ok h h' l : extends h h' → nn.Layer_ok h l → nn.Layer_ok h' l.
Proof.
  intros Hext Hl. eapply Forall_impl; [done|].
  intros n. by apply extends_Neuron_ok.
Qed.

Lemma extends_inputs_ok h h' xs :
  extends h h' → nn.inputs_ok h xs → nn.inputs_ok h' xs.
Proof.
  intros Hext Hxs. eapply Forall_impl; [done|].
  intros o [q Hq]. exists q. by eapply extends_operand_value.
Qed.

Section LayerCall.

Context (iter_first : ref → ref → bool).

Lemma neuron_call_ok n xs h :
  nn.Neuron_ok h n → nn.inputs_ok h xs →
  ∃ out h', nn.Neuron_call iter_first n (nn.Many xs) h = Ok (inr out) h'
            ∧ nn.defined h' out ∧ extends h h'.
Proof.
  intros [Hw [nb Hb]] Hxs.
  destruct (Forall_is_Some (data_at h) (nn.w n)) as [wv Hwv].
  { eapply Forall_impl; [done|]. intros v [m Hm]. exists (data m).
    apply data_at_Some. by exists m. }
  destruct (Forall_is_Some _ _ Hxs) as [xv Hxv].
  destruct (neuron_call_runs iter_first n xs h wv xv (data nb) Hwv Hxv)
    as (out & h' & d & E & Hd & _ & _ & Hext & _).
  { apply data_at_Some. by exists nb. }
  exists out, h'. split; [done|]. split; [|done].
  apply data_at_Some in Hd as (m & Hm & _). by exists m.
Qed.

Lemma call_each_ok ns xs : ∀ h,
  Forall (nn.Neuron_ok h) ns → nn.inputs_ok h xs →
  ∃ vs h', nn.call_each iter_first ns (nn.Many xs) h = Ok (inr vs) h'
           ∧ length vs = length ns
           ∧ Forall (nn.defined h') vs ∧ extends h h'.
Proof.
  induction ns as [|n ns IH]; intros h Hns Hxs.
  - exists [], h. split; [done|]. split; [done|].
    split; [constructor|apply extends_refl].
  - apply Forall_cons in Hns as [Hn Hns].
    destruct (neuron_call_ok n xs h Hn Hxs) as (v & h1 & E1 & Hv & Hext1).
    destruct (IH h1) as (vs & h' & E & Hlen & Hvs & Hext).
    { eapply Forall_impl; [done|]. intros m. by apply extends_Neuron_ok. }
    { by eapply extends_inputs_ok. }
    cbn [nn.call_each]. unfold mbind, M_bind. rewrite E1, E.
    exists (v :: vs), h'. split; [done|]. split; [simpl; by rewrite Hlen|].
    split; [|by eapply extends_trans].
    constructor; [by eapply extends_defined|done].
Qed.

(** A call of a layer on a list: a node from a layer of one neuron, a
    list of nodes otherwise. *)
Lemma layer_call_ok l xs h :
  nn.Layer_ok h l → nn.inputs_ok h xs →
  ∃ r h', nn.Layer_call iter_first l (nn.Many xs) h = Ok (inr r) h'
          ∧ extends h h'
          ∧ match r with
            | nn.Single v => length (nn.neurons l) = 1 ∧ nn.defined h' v
            | nn.Many ys =>
                length (nn.neurons l) ≠ 1
                ∧ length ys = length (nn.neurons l)
                ∧ nn.inputs_ok h' ys
                ∧ Forall (λ o, ∃ v, o = Val v) ys
            end.
Proof.
  intros Hl Hxs.
  destruct (call_each_ok (nn.neurons l) xs h Hl Hxs)
    as (vs & h' & E & Hlen & Hvs & Hext).
  unfold nn.Layer_call, mbind, M_bind. rewrite E.
  destruct vs as [|v [|v' vs]].
  - exists (nn.Many []), h'. split; [done|]. split; [done|].
    simpl in Hlen. rewrite <- Hlen. repeat split; try done; constructor.
  - exists (nn.Single v), h'. split; [done|]. split; [done|].
    split; [done|]. by apply Forall_cons in Hvs as [? _].
  - eexists (nn.Many _), h'. split; [reflexivity|]. split; [done|].
    rewrite <- Hlen. split; [simpl; lia|]. split; [by rewrite length_fmap|].
    split.
    + unfold nn.inputs_ok. rewrite Forall_fmap.
      eapply Forall_impl; [done|]. intros u [m Hm]. exists (data m).
      simpl. apply data_at_Some. by exists m.
    + rewrite Forall_fmap. apply Forall_forall. intros u _. by exists u.
Qed.

End LayerCall.

(** X14.  What a layer returns.  Called on a list of existing values, a
    layer calls its neurons in turn, each call only appending to the
    heap, and returns the node of its neuron when it has exactly one
    neuron, and otherwise the list of the nodes of its neurons (the
    empty list for a layer of no neuron). *)
Theorem layer_call_shape (iter_first : ref → ref → bool) (l : nn.Layer)
    (xs : list operand) (h : heap) :
  nn.Layer_ok h l → nn.inputs_ok h xs →
  ∃ r h', nn.Layer_call iter_first l (nn.Many xs) h = Ok (inr r) h'
          ∧ extends h h'
          ∧ match r with
            | nn.Single v => length (nn.neurons l) = 1 ∧ nn.defined h' v
            | nn.Many ys =>
                length (nn.neurons l) ≠ 1
                ∧ length ys = length (nn.neurons l)
                ∧ nn.inputs_ok h' ys
                ∧ Forall (λ o, ∃ v, o = Val v) ys
            end.
Proof. apply layer_call_ok. Qed.

Lemma layer_call_shape_witness :
  let h := mkHeap [mkValue 2 0 BNone [] OpLeaf; mkValue 1 0 BNone [] OpLeaf] [] in
  ∃ v h', nn.Layer_call (λ _ _, true)
            (nn.mkLayer [nn.mkNeuron [0] 1 true]) (nn.Many [Num 3]) h
          = Ok (inr (nn.Single v)) h'.
Proof.
  intros h.
  destruct (layer_call_shape (λ _ _, true)
              (nn.mkLayer [nn.mkNeuron [0] 1 true]) [Num 3] h)
    as (r & h' & E & _ & Hr).
  - repeat constructor; by eexists.
  - repeat constructor. by eexists.
  - destruct r as [v|ys]; [by exists v, h'|]. by destruct Hr as [Hne _].
Defined.

(** X15.  A layer of one neuron breaks the network it is not the last
    layer of.  A layer with a neuron, called on a node instead of a
    list, raises [TypeError] at once; so a network whose first layer has
    exactly one neuron and whose second layer has a neuron raises
    [TypeError] on every list of existing values, after the first layer
    has added its nodes to the heap. *)
Theorem single_neuron_layer_raises (iter_first : ref → ref → bool)
    (m : nn.MLP) (l1 l2 : nn.Layer) (rest : list nn.Layer)
    (xs : list operand) (v : ref) (h : heap) :
  nn.layers m = l1 :: l2 :: rest →
  length (nn.neurons l1) = 1 → nn.neurons l2 ≠ [] →
  nn.Layer_ok h l1 → nn.inputs_ok h xs →
  nn.Layer_call iter_first l2 (nn.Single v) h = Ok (inl nn.TypeError) h
  ∧ ∃ h', nn.MLP_call iter_first m (nn.Many xs) h = Ok (inl nn.TypeError) h'
          ∧ extends h h'.
Proof.
  intros Hm Hone Hl2 Hok Hxs.
  assert (∀ u g, nn.Layer_call iter_first l2 (nn.Single u) g
                 = Ok (inl nn.TypeError) g) as Hraise.
  { intros u g. unfold nn.Layer_call.
    destruct (nn.neurons l2) as [|n ns]; [done|]. reflexivity. }
  split; [apply Hraise|].
  destruct (layer_call_ok iter_first l1 xs h Hok Hxs) as (r & h' & E & Hext & Hr).
  destruct r as [u|ys]; [|by destruct Hr as [Hne _]].
  exists h'. split; [|done].
  unfold nn.MLP_call. rewrite Hm. cbn [nn.through]. unfold mbind, M_bind.
  by rewrite E, Hraise.
Qed.

Lemma single_neuron_layer_raises_witness :
  let h := mkHeap [mkValue 2 0 BNone [] OpLeaf; mkValue 1 0 BNone [] OpLeaf] [] in
  let l := nn.mkLayer [nn.mkNeuron [0] 1 true] in
  ∃ h', nn.MLP_call (λ _ _, true) (nn.mkMLP [l; l]) (nn.Many [Num 3]) h
        = Ok (inl nn.TypeError) h'.
Proof.
  intros h l.
  destruct (single_neuron_layer_raises (λ _ _, true) (nn.mkMLP [l; l]) l l []
              [Num 3] 0 h eq_refl eq_refl) as (_ & h' & E & _).
  - done.
  - repeat constructor; by eexists.
  - repeat constructor. by eexists.
  - by exists h'.
Defined.

Section NetworkCall.

Context (iter_first : ref → ref → bool).

(** The layers in turn, when no layer but the last has exactly one
    neuron. *)
Lemma through_ok ls : ∀ xs h,
  Forall (nn.Layer_ok h) ls → nn.inputs_ok h xs →
  (∀ i l, ls !! i = Some l → S i < length ls → length (nn.neurons l) ≠ 1) →
  ∃ r h', nn.through iter_first ls (nn.Many xs) h = Ok (inr r) h'
          ∧ extends h h'
          ∧ match last ls with
            | None => r = nn.Many xs
            | Some l =>
                match r with
                | nn.Single v => length (nn.neurons l) = 1 ∧ nn.defined h' v
                | nn.Many ys =>
                    length (nn.neurons l) ≠ 1
                    ∧ length ys = length (nn.neurons l)
                    ∧ nn.inputs_ok h' ys
                end
            end.
Proof.
  induction ls as [|l ls IH]; intros xs h Hls Hxs Hinner.
  - exists (nn.Many xs), h. split; [done|]. split; [apply extends_refl|done].
  - apply Forall_cons in Hls as [Hl Hls].
    destruct (layer_call_ok iter_first l xs h Hl Hxs)
      as (r & h1 & E & Hext & Hr).
    cbn [nn.through]. unfold mbind, M_bind. rewrite E.
    destruct ls as [|l' ls].
    + exists r, h1. split; [done|]. split; [done|]. simpl.
      destruct r as [v|ys]; [done|]. by destruct Hr as (? & ? & ? & _).
    + destruct r as [v|ys].
      { destruct Hr as [Hone _]. exfalso.
        apply (Hinner 0 l eq_refl); [simpl; lia|done]. }
      destruct Hr as (_ & _ & Hys & _).
      destruct (IH ys h1) as (r' & h' & E' & Hext' & Hr').
      * eapply Forall_impl; [done|]. intros k. by apply extends_Layer_ok.
      * done.
      * intros i k Hk Hi. apply (Hinner (S i) k Hk). simpl in *. lia.
      * exists r', h'. split; [done|]. split; [by eapply extends_trans|].
        change (last (l :: l' :: ls)) with (last (l' :: ls)).
        destruct (last (l' :: ls)) eqn:Hlast; [exact Hr'|].
        by apply last_None in Hlast.
Qed.

Lemma parameters_defined_layers_ok h ls :
  Forall (nn.defined h) (l ← ls; nn.Layer_parameters l) →
  Forall (nn.Layer_ok h) ls.
Proof.
  induction ls as [|l ls IH]; intros Hps; [constructor|].
  rewrite bind_cons in Hps. apply Forall_app in Hps as [Hl Hrest].
  constructor; [|by apply IH].
  unfold nn.Layer_ok. unfold nn.Layer_parameters in Hl. clear -Hl.
  induction (nn.neurons l) as [|n ns IHn]; [constructor|].
  rewrite bind_cons in Hl. apply Forall_app in Hl as [Hn Hns].
  constructor; [|by apply IHn].
  unfold nn.Neuron_parameters in Hn. apply Forall_app in Hn as [Hw Hb].
  split; [done|]. by inversion Hb.
Qed.

End NetworkCall.

(** X16.  A new network can be called.  When no layer of
    [MLP(nin, nouts)] but the last has size one, the network, called on
    any list of existing values, returns without error, only appending
    to the heap: a single node when the last layer has size one, and
    otherwise a list of as many nodes as the last layer has neurons.  A
    network of no layer returns its input. *)
Theorem mlp_call_runs (iter_first : ref → ref → bool) (uniform : nat → Q)
    (nin : nat) (nouts : list nat) (k : nat) (h : heap) (xs : list operand) :
  (∀ i o, nouts !! i = Some o → S i < length nouts → o ≠ 1) →
  nn.inputs_ok h xs →
  ∃ m k' h' r h'',
    nn.MLP_init iter_first uniform nin nouts k h = Ok (m, k') h'
    ∧ nn.MLP_call iter_first m (nn.Many xs) h' = Ok (inr r) h''
    ∧ extends h h' ∧ extends h' h''
    ∧ match last nouts with
      | None => r = nn.Many xs
      | Some o =>
          match r with
          | nn.Single v => o = 1 ∧ nn.defined h'' v
          | nn.Many ys => o ≠ 1 ∧ length ys = o
          end
      end.
Proof.
  intros Hinner Hxs.
  destruct (mlp_init_spec iter_first uniform nin nouts k h)
    as (m & k' & h' & E & Hlen & Hshape & Hps & Hext & Hlen').
  assert (Forall (nn.Layer_ok h') (nn.layers m)) as Hok.
  { apply parameters_defined_layers_ok.
    unfold nn.MLP_parameters in Hps. rewrite Hps.
    apply Forall_forall. intros p [Hlo Hhi]%elem_of_seq.
    apply lookup_lt_is_Some_2. lia. }
  destruct (through_ok iter_first (nn.layers m) xs h' Hok)
    as (r & h'' & E' & Hext' & Hr).
  { by eapply extends_inputs_ok. }
  { intros i l Hl Hi. destruct (Hshape i l Hl) as [Hn _]. rewrite Hn.
    rewrite Hlen in Hi.
    destruct (lookup_lt_is_Some_2 nouts i) as [o Ho]; [lia|].
    rewrite (list_lookup_total_correct _ _ _ Ho). by eapply Hinner. }
  exists m, k', h', r, h''. split; [done|]. split; [done|].
  split; [done|]. split; [done|].
  rewrite !last_lookup, Hlen in *.
  destruct (nouts !! pred (length nouts)) as [o|] eqn:Ho.
  - destruct (lookup_lt_is_Some_2 (nn.layers m) (pred (length nouts)))
      as [l Hl].
    { apply lookup_lt_Some in Ho. lia. }
    rewrite Hl in Hr. destruct (Hshape _ l Hl) as [Hn _].
    rewrite (list_lookup_total_correct _ _ _ Ho) in Hn. rewrite Hn in Hr.
    destruct r as [v|ys]; [done|]. by destruct Hr as (? & ? & _).
  - apply lookup_ge_None in Ho.
    destruct (nn.layers m !! pred (length nouts)) as [l|] eqn:Hl; [|done].
    apply lookup_lt_Some in Hl. destruct nouts; simpl in *; lia.
Qed.

Lemma mlp_call_runs_witness :
  ∃ m k' h' r h'',
    nn.MLP_init (λ _ _, true) (λ _, 1%Q) 2 [2; 1] 0 empty_heap = Ok (m, k') h'
    ∧ nn.MLP_call (λ _ _, true) m (nn.Many [Num 3; Num 4]) h' = Ok (inr r) h''
    ∧ ∃ v, r = nn.Single v.
Proof.
  destruct (mlp_call_runs (λ _ _, true) (λ _, 1%Q) 2 [2; 1] 0 empty_heap
              [Num 3; Num 4])
    as (m & k' & h' & r & h'' & E & E' & _ & _ & Hr).
  - intros [|[|i]] o Ho Hi; simpl in *; [by injection Ho as <-|lia|lia].
  - repeat constructor; by eexists.
  - exists m, k', h', r, h''. split; [done|]. split; [done|].
    simpl in Hr. destruct r as [v|ys]; [by exists v|]. by destruct Hr.
Defined.
